(** * Multipart copy of an S3 object: the partition planner and the
      copy / complete / abort orchestration of [copy-object-multipart.js].

    JavaScript numbers are modelled as [Z]: every quantity the module computes
    is an integer, and on integers below 2^53 the double arithmetic of
    [Math.floor(a / b)], [%], [*], [+] and [-] is exact.  [Math.floor (a / b)]
    is the floor quotient [Z.div]; [%] truncates towards zero and is [Z.rem].
    An optional argument is an [option]: [None] is [undefined].

    The planner below is therefore the source on safe integers
    ([isSafeInteger]) only.  From 2^53 on the source rounds: the quotient may
    round up to the next integer before [Math.floor], products and sums lose
    their low bits, and from 1e21 on a number is printed in exponent form.  A
    statement about sizes in general carries [isSafeInteger] on the object
    size and on the part size; [planner_numbers_safe] shows that every number
    the planner then forms is a safe integer again. *)

From stdpp Require Import base numbers list strings pretty gmap.

Open Scope Z_scope.

(** ** Constants of the module *)

Definition COPY_PART_SIZE_MINIMUM_BYTES : Z := 5242880.
Definition DEFAULT_COPY_PART_SIZE_BYTES : Z := 50000000.
Definition DEFAULT_COPIED_OBJECT_PERMISSIONS : string := "private".

(** [Number.MAX_SAFE_INTEGER], 2^53 - 1, and [Number.isSafeInteger] on an
    integer: the numbers on which the arithmetic of the source is that of
    [Z]. *)
Definition MAX_SAFE_INTEGER : Z := 9007199254740991.

Definition isSafeInteger (z : Z) : Prop :=
  - MAX_SAFE_INTEGER ≤ z ≤ MAX_SAFE_INTEGER.

(** ** Truthiness, as far as the module relies on it *)

(** [v || d] on an optional number: [undefined] and [0] are falsy. *)
Definition number_or (v : option Z) (d : Z) : Z :=
  match v with
  | Some x => if x =? 0 then d else x
  | None => d
  end.

(** [v || d] on an optional string: [undefined] and the empty string are
    falsy. *)
Definition string_or (v : option string) (d : string) : string :=
  match v with
  | Some EmptyString => d
  | Some s => s
  | None => d
  end.

(** [v ? v : undefined] on an optional string. *)
Definition truthy_string (v : option string) : option string :=
  match v with
  | Some EmptyString => None
  | other => other
  end.

(** ** The partition planner

    [calculatePartitionsRangeArray] builds each partition as the text
    [first + '-' + last].  The planner is written once over the way a pair of
    bounds is turned into a partition, so that the same loop yields the texts
    the module sends ([calculatePartitionsRangeArray]) and the bounds
    themselves ([partitionBounds]). *)

(** A number printed by string concatenation: decimal digits, with a minus
    sign when negative.  This is the text of the source for integers of
    magnitude below 1e21, safe integers among them; from 1e21 on the source
    prints an exponent form, which is not modelled. *)
Definition partition_string (first last : Z) : string :=
  pretty first +:+ "-" +:+ pretty last.

Section Planner.
Context {P : Type} (mk : Z → Z → P).

(** The [for] loop of the planner, started at [index] with the partitions
    pushed so far; it returns the array and the value [index] has on exit. *)
Fixpoint partitions_loop (fuel : nat)
    (index numOfPartitions copy_part_size remainder : Z)
    (partitions : list P) : list P * Z :=
  match fuel with
  | O => (partitions, index)
  | S fuel' =>
      if index <? numOfPartitions then
        let nextIndex := index + 1 in
        let partition :=
          if (nextIndex =? numOfPartitions)
             && (remainder <? COPY_PART_SIZE_MINIMUM_BYTES)
          then mk (index * copy_part_size)
                  (nextIndex * copy_part_size + remainder - 1)
          else mk (index * copy_part_size) (nextIndex * copy_part_size - 1)
        in
        partitions_loop fuel' (index + 1) numOfPartitions copy_part_size
          remainder (partitions ++ [partition])
      else (partitions, index)
  end.

Definition calculatePartitions (object_size : Z)
    (copy_part_size_bytes : option Z) : list P :=
  let copy_part_size :=
    number_or copy_part_size_bytes DEFAULT_COPY_PART_SIZE_BYTES in
  let numOfPartitions := object_size / copy_part_size in
  let remainder := Z.rem object_size copy_part_size in
  let '(partitions, index) :=
    partitions_loop (Z.to_nat numOfPartitions) 0 numOfPartitions
      copy_part_size remainder [] in
  if COPY_PART_SIZE_MINIMUM_BYTES <=? remainder
  then partitions
         ++ [mk (index * copy_part_size)
                (index * copy_part_size + remainder - 1)]
  else partitions.
End Planner.

Definition calculatePartitionsRangeArray : Z → option Z → list string :=
  calculatePartitions partition_string.

Definition partitionBounds : Z → option Z → list (Z * Z) :=
  calculatePartitions pair.

(** The partition the loop pushes when it runs its body at [index]. *)
Definition loop_partition {P} (mk : Z → Z → P)
    (numOfPartitions copy_part_size remainder index : Z) : P :=
  let nextIndex := index + 1 in
  if (nextIndex =? numOfPartitions)
     && (remainder <? COPY_PART_SIZE_MINIMUM_BYTES)
  then mk (index * copy_part_size) (nextIndex * copy_part_size + remainder - 1)
  else mk (index * copy_part_size) (nextIndex * copy_part_size - 1).

(** ** Properties of a sequence of byte ranges *)

(** [tiles lo hi rs]: the ranges start at [lo], each is non-empty and begins
    right after its predecessor ends, and the last one ends at [hi - 1]. *)
Fixpoint tiles (lo hi : Z) (rs : list (Z * Z)) : Prop :=
  match rs with
  | [] => lo = hi
  | (first, last) :: rest => first = lo ∧ first ≤ last ∧ tiles (last + 1) hi rest
  end.

Definition contiguous (rs : list (Z * Z)) : Prop :=
  ∀ i r1 r2, rs !! i = Some r1 → rs !! S i = Some r2 → r2.1 = r1.2 + 1.

Definition non_overlapping (rs : list (Z * Z)) : Prop :=
  ∀ i j r1 r2, (i < j)%nat → rs !! i = Some r1 → rs !! j = Some r2 →
    r1.1 ≤ r1.2 ∧ r1.2 < r2.1 ∧ r2.1 ≤ r2.2.

Definition union_is (rs : list (Z * Z)) (lo hi : Z) : Prop :=
  ∀ b, (∃ r, r ∈ rs ∧ r.1 ≤ b ≤ r.2) ↔ lo ≤ b ≤ hi.


(** ** Requests and responses of the storage client

    Each request object of the source is a record carrying the keys the source
    sets; a key the source leaves out, or a key a response may lack, is an
    [option].  Upload ids and entity tags are opaque texts. *)

(** [expiration_period] is a number or a [Date]; a [Date] is always truthy. *)
Inductive Expiration :=
| ExpirationNumber (n : Z)
| ExpirationDate (iso : string).

Definition truthy_expiration (v : option Expiration) : option Expiration :=
  match v with
  | Some (ExpirationNumber n) => if n =? 0 then None else v
  | other => other
  end.

Module CreateMultipartUpload.
Record Input := {
  Bucket : string;
  Key : string;
  ACL : string;
  Expires : option Expiration;
  ContentType : option string;
  ContentDisposition : option string;
  ContentEncoding : option string;
  ContentLanguage : option string;
  Metadata : option (gmap string string);
  CacheControl : option string;
  ServerSideEncryption : option string;
  StorageClass : option string
}.
Record Output := { UploadId : option string }.
End CreateMultipartUpload.

Module UploadPartCopy.
Record Input := {
  Bucket : string;
  CopySource : string;
  CopySourceRange : string;
  Key : string;
  PartNumber : nat;
  UploadId : option string
}.
Record CopyPartResultObject := { ETag : option string }.
Record Output := { CopyPartResult : option CopyPartResultObject }.
End UploadPartCopy.

(** The [params] object shared by the abort and the list-parts requests. *)
Module Upload.
Record Params := {
  Bucket : string;
  Key : string;
  UploadId : option string
}.
End Upload.

Module ListParts.
Record Part := {
  PartNumber : nat;
  ETag : option string;
  Size : Z
}.
Record Output := { Parts : option (list Part) }.
End ListParts.

Module CompleteMultipartUpload.
Record CompletedPart := {
  ETag : option string;
  PartNumber : nat
}.
Record Manifest := { Parts : list CompletedPart }.
Record Input := {
  Bucket : string;
  Key : string;
  MultipartUpload : Manifest;
  UploadId : option string
}.
Record Output := {
  Location : option string;
  ETag_ : option string
}.
End CompleteMultipartUpload.

Inductive Command :=
| CreateMultipartUploadCommand (params : CreateMultipartUpload.Input)
| UploadPartCopyCommand (params : UploadPartCopy.Input)
| AbortMultipartUploadCommand (params : Upload.Params)
| ListPartsCommand (params : Upload.Params)
| CompleteMultipartUploadCommand (params : CompleteMultipartUpload.Input).

(** ** Errors and promises *)

(** What the source attaches to an error as [err.details]. *)
Inductive Details :=
| DetailsParams (params : Upload.Params)
| DetailsPartsList (parts_list : ListParts.Output).

(** The values a promise of this module is rejected with: the reason the
    client gave for a failed request, a [TypeError] of the runtime (a property
    read on [undefined]), an [Error] the module creates itself, or the
    [URIError] of [encodeURIComponent]. *)
Inductive JsError :=
| ServiceException (name : string)
| TypeError (message : string)
| Error (message : string) (details : Details)
| URIError (message : string).

(** A promise is identified with the state it ends in. *)
Inductive Promise (A : Type) :=
| Pending
| Fulfilled (value : A)
| Rejected (reason : JsError).
Arguments Pending {A}.
Arguments Fulfilled {A} value.
Arguments Rejected {A} reason.

(** The storage client: what [client.send] answers to each command. *)
Record S3Client := {
  createMultipartUpload :
    CreateMultipartUpload.Input → Promise CreateMultipartUpload.Output;
  uploadPartCopy : UploadPartCopy.Input → Promise UploadPartCopy.Output;
  abortMultipartUpload : Upload.Params → Promise unit;
  listParts : Upload.Params → Promise ListParts.Output;
  completeMultipartUpload :
    CompleteMultipartUpload.Input → Promise CompleteMultipartUpload.Output
}.

(** ** Computations that send commands

    A computation yields a value together with the commands it handed to
    [client.send], in the order of the calls. *)
Definition IO (A : Type) : Type := A * list Command.

Definition io_ret {A} (a : A) : IO A := (a, []).

Definition io_bind {A B} (m : IO A) (k : A → IO B) : IO B :=
  let '(a, sent) := m in
  let '(b, sent') := k a in
  (b, sent ++ sent').

Notation "'let*' x := m 'in' k" := (io_bind m (λ x, k))
  (at level 10, x name, m at level 100, k at level 200, only parsing).

(** [p.then(onFulfilled)], and [await p] followed by the rest of an async
    function: the callback runs only when [p] is fulfilled. *)
Definition then_ {A B} (p : Promise A) (onFulfilled : A → IO (Promise B))
    : IO (Promise B) :=
  match p with
  | Fulfilled value => onFulfilled value
  | Rejected reason => io_ret (Rejected reason)
  | Pending => io_ret Pending
  end.

(** [p.catch(onRejected)]. *)
Definition catch_ {A} (p : Promise A) (onRejected : JsError → IO (Promise A))
    : IO (Promise A) :=
  match p with
  | Rejected reason => onRejected reason
  | other => io_ret other
  end.

(** [Promise.all]: [completion] lists the indices of the promises in the order
    in which they settle.  A fulfilled promise stores its value at its own
    index; the first rejection rejects the whole; the result is fulfilled once
    every index holds a value, and stays pending otherwise. *)
Fixpoint Promise_all_settle {A} (promises : list (Promise A))
    (completion : list nat) (values : list (option A)) : Promise (list A) :=
  match completion with
  | [] =>
      match mapM id values with
      | Some all_values => Fulfilled all_values
      | None => Pending
      end
  | index :: later =>
      match promises !! index with
      | Some (Fulfilled value) =>
          Promise_all_settle promises later (<[index := Some value]> values)
      | Some (Rejected reason) => Rejected reason
      | Some Pending | None => Promise_all_settle promises later values
      end
  end.

Definition Promise_all {A} (promises : list (Promise A))
    (completion : list nat) : Promise (list A) :=
  Promise_all_settle promises completion (replicate (length promises) None).

(** ** The module's functions *)

Module Options.
Record t := {
  source_bucket : string;
  object_key : string;
  destination_bucket : string;
  copied_object_name : string;
  object_size : Z;
  copy_part_size_bytes : option Z;
  copied_object_permissions : option string;
  expiration_period : option Expiration;
  server_side_encryption : option string;
  content_type : option string;
  content_disposition : option string;
  content_encoding : option string;
  content_language : option string;
  metadata : option (gmap string string);
  cache_control : option string;
  storage_class : option string
}.
End Options.

(** [copy_parts_results_array.forEach] of [prepareResultsForCopyCompletion],
    from [index] on; reading [ETag] of a missing [CopyPartResult] throws. *)
Fixpoint prepareResults_forEach (index : nat)
    (copy_parts_results_array : list UploadPartCopy.Output)
    (resultArray : list CompleteMultipartUpload.CompletedPart)
    : JsError + list CompleteMultipartUpload.CompletedPart :=
  match copy_parts_results_array with
  | [] => inr resultArray
  | copy_part :: rest =>
      match UploadPartCopy.CopyPartResult copy_part with
      | None =>
          inl (TypeError "Cannot read properties of undefined (reading 'ETag')")
      | Some result =>
          let newCopyPart :=
            {| CompleteMultipartUpload.ETag := UploadPartCopy.ETag result;
               CompleteMultipartUpload.PartNumber := (index + 1)%nat |} in
          prepareResults_forEach (S index) rest (resultArray ++ [newCopyPart])
      end
  end.

Definition prepareResultsForCopyCompletion
    (copy_parts_results_array : list UploadPartCopy.Output)
    : JsError + list CompleteMultipartUpload.CompletedPart :=
  prepareResults_forEach 0 copy_parts_results_array [].

(** The [params] objects the functions build. *)

Definition initiateMultipartCopy_params
    (destination_bucket copied_object_name : string)
    (copied_object_permissions : option string)
    (expiration_period : option Expiration)
    (server_side_encryption content_type content_disposition content_encoding
       content_language : option string)
    (metadata : option (gmap string string))
    (cache_control storage_class : option string)
    : CreateMultipartUpload.Input :=
  {| CreateMultipartUpload.Bucket := destination_bucket;
     CreateMultipartUpload.Key := copied_object_name;
     CreateMultipartUpload.ACL :=
       string_or copied_object_permissions DEFAULT_COPIED_OBJECT_PERMISSIONS;
     CreateMultipartUpload.Expires := truthy_expiration expiration_period;
     CreateMultipartUpload.ContentType := truthy_string content_type;
     CreateMultipartUpload.ContentDisposition :=
       truthy_string content_disposition;
     CreateMultipartUpload.ContentEncoding := truthy_string content_encoding;
     CreateMultipartUpload.ContentLanguage := truthy_string content_language;
     CreateMultipartUpload.Metadata := metadata;
     CreateMultipartUpload.CacheControl := truthy_string cache_control;
     CreateMultipartUpload.ServerSideEncryption :=
       truthy_string server_side_encryption;
     CreateMultipartUpload.StorageClass := truthy_string storage_class |}.

Definition copyPart_params (encodeURIComponent : string → string)
    (source_bucket destination_bucket : string) (part_number : nat)
    (object_key partition_range copied_object_name : string)
    (upload_id : option string) : UploadPartCopy.Input :=
  let encodedSourceKey :=
    encodeURIComponent (source_bucket +:+ "/" +:+ object_key) in
  {| UploadPartCopy.Bucket := destination_bucket;
     UploadPartCopy.CopySource := encodedSourceKey;
     UploadPartCopy.CopySourceRange := "bytes=" +:+ partition_range;
     UploadPartCopy.Key := copied_object_name;
     UploadPartCopy.PartNumber := part_number;
     UploadPartCopy.UploadId := upload_id |}.

Definition abortMultipartCopy_params
    (destination_bucket copied_object_name : string)
    (upload_id : option string) : Upload.Params :=
  {| Upload.Bucket := destination_bucket;
     Upload.Key := copied_object_name;
     Upload.UploadId := upload_id |}.

Definition completeMultipartCopy_params (destination_bucket : string)
    (ETags_array : list CompleteMultipartUpload.CompletedPart)
    (copied_object_name : string) (upload_id : option string)
    : CompleteMultipartUpload.Input :=
  {| CompleteMultipartUpload.Bucket := destination_bucket;
     CompleteMultipartUpload.Key := copied_object_name;
     CompleteMultipartUpload.MultipartUpload :=
       {| CompleteMultipartUpload.Parts := ETags_array |};
     CompleteMultipartUpload.UploadId := upload_id |}.

Section Module_functions.
(** The client created by [init], the runtime's [encodeURIComponent] on the
    texts it encodes (the texts on which it throws are the subject of
    [Module_functions_throwing] below), and the order in which the part copies
    of the run settle. *)
Variable client : S3Client.
Variable encodeURIComponent : string → string.
Variable completion : list nat.

Definition initiateMultipartCopy (destination_bucket copied_object_name : string)
    (copied_object_permissions : option string)
    (expiration_period : option Expiration)
    (server_side_encryption content_type content_disposition content_encoding
       content_language : option string)
    (metadata : option (gmap string string))
    (cache_control storage_class : option string)
    : IO (Promise (option string)) :=
  let params :=
    initiateMultipartCopy_params destination_bucket copied_object_name
      copied_object_permissions expiration_period server_side_encryption
      content_type content_disposition content_encoding content_language
      metadata cache_control storage_class in
  let* response :=
    (createMultipartUpload client params, [CreateMultipartUploadCommand params])
  in
  then_ response (λ response,
    io_ret (Fulfilled (CreateMultipartUpload.UploadId response))).

Definition copyPart (source_bucket destination_bucket : string)
    (part_number : nat) (object_key partition_range copied_object_name : string)
    (upload_id : option string) : IO (Promise UploadPartCopy.Output) :=
  let params :=
    copyPart_params encodeURIComponent source_bucket destination_bucket
      part_number object_key partition_range copied_object_name upload_id in
  (uploadPartCopy client params, [UploadPartCopyCommand params]).

Definition abortMultipartCopy {A} (destination_bucket copied_object_name : string)
    (upload_id : option string) : IO (Promise A) :=
  let params :=
    abortMultipartCopy_params destination_bucket copied_object_name upload_id in
  let* aborted :=
    (abortMultipartUpload client params, [AbortMultipartUploadCommand params])
  in
  let* listed :=
    then_ aborted (λ _, (listParts client params, [ListPartsCommand params])) in
  let* listed := catch_ listed (λ err, io_ret (Rejected err)) in
  then_ listed (λ parts_list,
    match ListParts.Parts parts_list with
    | None =>
        io_ret
          (Rejected
             (TypeError "Cannot read properties of undefined (reading 'length')"))
    | Some parts =>
        if (0 <? length parts)%nat then
          io_ret
            (Rejected
               (Error "Abort procedure passed but copy parts were not removed"
                  (DetailsPartsList parts_list)))
        else
          io_ret (Rejected (Error "multipart copy aborted" (DetailsParams params)))
    end).

Definition completeMultipartCopy (destination_bucket : string)
    (ETags_array : list CompleteMultipartUpload.CompletedPart)
    (copied_object_name : string) (upload_id : option string)
    : IO (Promise CompleteMultipartUpload.Output) :=
  let params :=
    completeMultipartCopy_params destination_bucket ETags_array
      copied_object_name upload_id in
  (completeMultipartUpload client params,
   [CompleteMultipartUploadCommand params]).

(** [partitionsRangeArray.forEach] of [copyObjectMultipart], from [index] on:
    every part copy is started, in order, before any of them is awaited. *)
Fixpoint copyParts_forEach (source_bucket destination_bucket object_key
      copied_object_name : string) (upload_id : option string) (index : nat)
    (partitionsRangeArray : list string)
    (copyPartFunctionsArray : list (Promise UploadPartCopy.Output))
    : IO (list (Promise UploadPartCopy.Output)) :=
  match partitionsRangeArray with
  | [] => io_ret copyPartFunctionsArray
  | partitionRange :: rest =>
      let* started :=
        copyPart source_bucket destination_bucket (index + 1)%nat object_key
          partitionRange copied_object_name upload_id in
      copyParts_forEach source_bucket destination_bucket object_key
        copied_object_name upload_id (S index) rest
        (copyPartFunctionsArray ++ [started])
  end.

(** What [copyObjectMultipart] does once the upload id is known. *)
Definition copyObjectMultipart_with (options : Options.t)
    (upload_id : option string) : IO (Promise CompleteMultipartUpload.Output) :=
  let source_bucket := Options.source_bucket options in
  let object_key := Options.object_key options in
  let destination_bucket := Options.destination_bucket options in
  let copied_object_name := Options.copied_object_name options in
  let partitionsRangeArray :=
    calculatePartitionsRangeArray (Options.object_size options)
      (Options.copy_part_size_bytes options) in
  let* copyPartFunctionsArray :=
    copyParts_forEach source_bucket destination_bucket object_key
      copied_object_name upload_id 0 partitionsRangeArray [] in
  let* completed :=
    then_ (Promise_all copyPartFunctionsArray completion) (λ copy_results,
      match prepareResultsForCopyCompletion copy_results with
      | inl thrown => io_ret (Rejected thrown)
      | inr copyResultsForCopyCompletion =>
          completeMultipartCopy destination_bucket
            copyResultsForCopyCompletion copied_object_name upload_id
      end) in
  catch_ completed (λ _,
    abortMultipartCopy destination_bucket copied_object_name upload_id).

Definition copyObjectMultipart (options : Options.t)
    : IO (Promise CompleteMultipartUpload.Output) :=
  let* initiated :=
    initiateMultipartCopy (Options.destination_bucket options)
      (Options.copied_object_name options)
      (Options.copied_object_permissions options)
      (Options.expiration_period options)
      (Options.server_side_encryption options) (Options.content_type options)
      (Options.content_disposition options) (Options.content_encoding options)
      (Options.content_language options) (Options.metadata options)
      (Options.cache_control options) (Options.storage_class options) in
  then_ initiated (copyObjectMultipart_with options).
End Module_functions.

(** ** The module's functions, with an [encodeURIComponent] that can throw

    The functions above take [encodeURIComponent] where it returns.  On a text
    with a lone surrogate it throws a [URIError]; [copyPart] calls it before
    it sends anything, inside the [forEach] of [copyObjectMultipart], where no
    handler is attached yet: the exception leaves the async function, whose
    promise is rejected with it.  The functions below are the same code with
    the encoder as a partial function, [None] standing for the throw. *)

Definition URI_malformed : JsError := URIError "URI malformed".

(** The text [copyPart] encodes. *)
Definition source_key (options : Options.t) : string :=
  Options.source_bucket options +:+ "/" +:+ Options.object_key options.

Section Module_functions_throwing.
Variable client : S3Client.
Variable encodeURIComponent : string → option string.
Variable completion : list nat.

(** [inl]: the call threw; [inr]: the promise it returned. *)
Definition copyPart_throwing (source_bucket destination_bucket : string)
    (part_number : nat) (object_key partition_range copied_object_name : string)
    (upload_id : option string)
    : IO (JsError + Promise UploadPartCopy.Output) :=
  match encodeURIComponent (source_bucket +:+ "/" +:+ object_key) with
  | None => io_ret (inl URI_malformed)
  | Some encodedSourceKey =>
      let params :=
        {| UploadPartCopy.Bucket := destination_bucket;
           UploadPartCopy.CopySource := encodedSourceKey;
           UploadPartCopy.CopySourceRange := "bytes=" +:+ partition_range;
           UploadPartCopy.Key := copied_object_name;
           UploadPartCopy.PartNumber := part_number;
           UploadPartCopy.UploadId := upload_id |} in
      (inr (uploadPartCopy client params), [UploadPartCopyCommand params])
  end.

(** The [forEach] over the ranges stops at the first call that throws. *)
Fixpoint copyParts_forEach_throwing (source_bucket destination_bucket object_key
      copied_object_name : string) (upload_id : option string) (index : nat)
    (partitionsRangeArray : list string)
    (copyPartFunctionsArray : list (Promise UploadPartCopy.Output))
    : IO (JsError + list (Promise UploadPartCopy.Output)) :=
  match partitionsRangeArray with
  | [] => io_ret (inr copyPartFunctionsArray)
  | partitionRange :: rest =>
      let* started :=
        copyPart_throwing source_bucket destination_bucket (index + 1)%nat
          object_key partitionRange copied_object_name upload_id in
      match started with
      | inl thrown => io_ret (inl thrown)
      | inr promise =>
          copyParts_forEach_throwing source_bucket destination_bucket
            object_key copied_object_name upload_id (S index) rest
            (copyPartFunctionsArray ++ [promise])
      end
  end.

Definition copyObjectMultipart_with_throwing (options : Options.t)
    (upload_id : option string) : IO (Promise CompleteMultipartUpload.Output) :=
  let source_bucket := Options.source_bucket options in
  let object_key := Options.object_key options in
  let destination_bucket := Options.destination_bucket options in
  let copied_object_name := Options.copied_object_name options in
  let partitionsRangeArray :=
    calculatePartitionsRangeArray (Options.object_size options)
      (Options.copy_part_size_bytes options) in
  let* started :=
    copyParts_forEach_throwing source_bucket destination_bucket object_key
      copied_object_name upload_id 0 partitionsRangeArray [] in
  match started with
  | inl thrown => io_ret (Rejected thrown)
  | inr copyPartFunctionsArray =>
      let* completed :=
        then_ (Promise_all copyPartFunctionsArray completion) (λ copy_results,
          match prepareResultsForCopyCompletion copy_results with
          | inl thrown => io_ret (Rejected thrown)
          | inr copyResultsForCopyCompletion =>
              completeMultipartCopy client destination_bucket
                copyResultsForCopyCompletion copied_object_name upload_id
          end) in
      catch_ completed (λ _,
        abortMultipartCopy client destination_bucket copied_object_name
          upload_id)
  end.

Definition copyObjectMultipart_throwing (options : Options.t)
    : IO (Promise CompleteMultipartUpload.Output) :=
  let* initiated :=
    initiateMultipartCopy client (Options.destination_bucket options)
      (Options.copied_object_name options)
      (Options.copied_object_permissions options)
      (Options.expiration_period options)
      (Options.server_side_encryption options) (Options.content_type options)
      (Options.content_disposition options) (Options.content_encoding options)
      (Options.content_language options) (Options.metadata options)
      (Options.cache_control options) (Options.storage_class options) in
  then_ initiated (copyObjectMultipart_with_throwing options).
End Module_functions_throwing.

(** ** Names for the requests of a run *)

(** The initiate request of a run. *)
Definition initiate_request (options : Options.t) : CreateMultipartUpload.Input :=
  initiateMultipartCopy_params (Options.destination_bucket options)
    (Options.copied_object_name options)
    (Options.copied_object_permissions options)
    (Options.expiration_period options)
    (Options.server_side_encryption options) (Options.content_type options)
    (Options.content_disposition options) (Options.content_encoding options)
    (Options.content_language options) (Options.metadata options)
    (Options.cache_control options) (Options.storage_class options).

(** The copy request of the range emitted at position [index]. *)
Definition part_request (encodeURIComponent : string → string)
    (options : Options.t) (upload_id : option string) (index : nat)
    (partitionRange : string) : UploadPartCopy.Input :=
  copyPart_params encodeURIComponent (Options.source_bucket options)
    (Options.destination_bucket options) (index + 1)%nat
    (Options.object_key options) partitionRange
    (Options.copied_object_name options) upload_id.

(** The ranges of a run and its copy requests, in emission order. *)
Definition ranges_of (options : Options.t) : list string :=
  calculatePartitionsRangeArray (Options.object_size options)
    (Options.copy_part_size_bytes options).

Definition part_requests (encodeURIComponent : string → string)
    (options : Options.t) (upload_id : option string)
    : list UploadPartCopy.Input :=
  imap (part_request encodeURIComponent options upload_id) (ranges_of options).

(** The abort and list-parts [params] of a run, and its complete request. *)
Definition upload_of (options : Options.t) (upload_id : option string)
    : Upload.Params :=
  abortMultipartCopy_params (Options.destination_bucket options)
    (Options.copied_object_name options) upload_id.

Definition complete_request (options : Options.t) (upload_id : option string)
    (manifest : list CompleteMultipartUpload.CompletedPart)
    : CompleteMultipartUpload.Input :=
  completeMultipartCopy_params (Options.destination_bucket options) manifest
    (Options.copied_object_name options) upload_id.

(** The promises of the part copies of a run, in emission order. *)
Definition part_promises (client : S3Client)
    (encodeURIComponent : string → string) (options : Options.t)
    (upload_id : option string) : list (Promise UploadPartCopy.Output) :=
  uploadPartCopy client <$> part_requests encodeURIComponent options upload_id.

(** What a computation yields and what it sent. *)
Definition outcome {A} (run : IO A) : A := run.1.
Definition sent {A} (run : IO A) : list Command := run.2.

(** The answer to a part copy that succeeded with the entity tag [etag]. *)
Definition copy_output (etag : option string) : UploadPartCopy.Output :=
  {| UploadPartCopy.CopyPartResult := Some {| UploadPartCopy.ETag := etag |} |}.

(** ** Properties in the words of the specification

    The definitions of this part follow the specification's sentences, not the
    source; they are what the functions above are compared with. *)

(** The plan of an object is non-empty, contiguous, non-overlapping and its
    union is the whole object. *)
Definition plan_covers_object (object_size : Z)
    (copy_part_size_bytes : option Z) : Prop :=
  let rs := partitionBounds object_size copy_part_size_bytes in
  calculatePartitionsRangeArray object_size copy_part_size_bytes
    = (λ r, partition_string r.1 r.2) <$> rs
  ∧ rs ≠ []
  ∧ contiguous rs
  ∧ non_overlapping rs
  ∧ union_is rs 0 (object_size - 1).

(** The manifest ordered by ascending part number: the entity tag of the
    part emitted at position [index] comes with part number [index + 1]. *)
Definition ordered_manifest (etags : list (option string))
    : list CompleteMultipartUpload.CompletedPart :=
  imap (λ index etag,
          {| CompleteMultipartUpload.ETag := etag;
             CompleteMultipartUpload.PartNumber := (index + 1)%nat |}) etags.

(** A run that fails before any request is made. *)
Definition rejected_before_any_request {A} (run : IO (Promise A)) : Prop :=
  sent run = [] ∧ ∃ reason, outcome run = Rejected reason.

(** A run that reports [reason] as it is, without an abort request. *)
Definition reported_without_abort {A} (reason : JsError)
    (run : IO (Promise A)) : Prop :=
  outcome run = Rejected reason
  ∧ ∀ params, AbortMultipartUploadCommand params ∉ sent run.

(** The failure of a part copy can be read back from the error the caller
    receives, whatever the client, the schedule and the request are. *)
Definition part_copy_failure_preserved : Prop :=
  ∃ context_of : JsError → JsError,
    ∀ client encodeURIComponent completion options response original returned,
      createMultipartUpload client (initiate_request options)
        = Fulfilled response →
      Promise_all
        (part_promises client encodeURIComponent options
           (CreateMultipartUpload.UploadId response)) completion
        = Rejected original →
      outcome (copyObjectMultipart client encodeURIComponent completion options)
        = Rejected returned →
      context_of returned = original.

(** ** Sample requests and clients *)

Definition sample_options (object_size : Z) (copy_part_size_bytes : option Z)
    : Options.t :=
  {| Options.source_bucket := "source-bucket";
     Options.object_key := "videos/big.bin";
     Options.destination_bucket := "destination-bucket";
     Options.copied_object_name := "copies/big.bin";
     Options.object_size := object_size;
     Options.copy_part_size_bytes := copy_part_size_bytes;
     Options.copied_object_permissions := None;
     Options.expiration_period := None;
     Options.server_side_encryption := None;
     Options.content_type := None;
     Options.content_disposition := None;
     Options.content_encoding := None;
     Options.content_language := None;
     Options.metadata := None;
     Options.cache_control := None;
     Options.storage_class := None |}.

Definition sample_copied (part_number : nat) : UploadPartCopy.Output :=
  {| UploadPartCopy.CopyPartResult :=
       Some {| UploadPartCopy.ETag := Some ("etag-" +:+ pretty part_number) |} |}.

Definition sample_completed : CompleteMultipartUpload.Output :=
  {| CompleteMultipartUpload.Location := Some "/destination-bucket/copies/big.bin";
     CompleteMultipartUpload.ETag_ := Some "etag-of-the-copy" |}.

(** A client that creates the upload ["upload-1"], accepts the abort, and
    answers the other requests as its arguments say. *)
Definition sample_client
    (copy_answer : nat → Promise UploadPartCopy.Output)
    (complete_answer : Promise CompleteMultipartUpload.Output)
    (list_answer : Promise ListParts.Output) : S3Client :=
  {| createMultipartUpload := λ _,
       Fulfilled {| CreateMultipartUpload.UploadId := Some "upload-1" |};
     uploadPartCopy := λ params,
       copy_answer (UploadPartCopy.PartNumber params);
     abortMultipartUpload := λ _, Fulfilled ();
     listParts := λ _, list_answer;
     completeMultipartUpload := λ _, complete_answer |}.

Definition no_parts_left : Promise ListParts.Output :=
  Fulfilled {| ListParts.Parts := Some [] |}.

Definition accepting_client : S3Client :=
  sample_client (λ part_number, Fulfilled (sample_copied part_number))
    (Fulfilled sample_completed) no_parts_left.

Definition client_failing_complete : S3Client :=
  sample_client (λ part_number, Fulfilled (sample_copied part_number))
    (Rejected (ServiceException "InternalError")) no_parts_left.

(** The copy of part 2 fails with the exception [name]. *)
Definition client_failing_part_2 (name : string) : S3Client :=
  sample_client
    (λ part_number,
       if (part_number =? 2)%nat then Rejected (ServiceException name)
       else Fulfilled (sample_copied part_number))
    (Fulfilled sample_completed) no_parts_left.

(** [encodeURIComponent] on the source key of [sample_options], and an
    encoder that throws, as on a key with a lone surrogate. *)
Definition sample_encoder : string → option string :=
  λ _, Some "source-bucket%2Fvideos%2Fbig.bin".

Definition throwing_encoder : string → option string := λ _, None.

(** Clients that fail at one place each. *)

Definition client_rejecting_initiate : S3Client :=
  {| createMultipartUpload := λ _, Rejected (ServiceException "AccessDenied");
     uploadPartCopy := uploadPartCopy accepting_client;
     abortMultipartUpload := abortMultipartUpload accepting_client;
     listParts := listParts accepting_client;
     completeMultipartUpload := completeMultipartUpload accepting_client |}.

(** The copy of part 2 fails, and the abort request answers [abort_answer],
    the list-parts request [list_answer]. *)
Definition client_failing_cleanup (abort_answer : Promise unit)
    (list_answer : Promise ListParts.Output) : S3Client :=
  {| createMultipartUpload := createMultipartUpload accepting_client;
     uploadPartCopy := uploadPartCopy (client_failing_part_2 "SlowDown");
     abortMultipartUpload := λ _, abort_answer;
     listParts := λ _, list_answer;
     completeMultipartUpload := completeMultipartUpload accepting_client |}.

(** The copy of part 2 is answered without a [CopyPartResult]. *)
Definition client_missing_copy_result : S3Client :=
  sample_client
    (λ part_number,
       if (part_number =? 2)%nat
       then Fulfilled {| UploadPartCopy.CopyPartResult := None |}
       else Fulfilled (sample_copied part_number))
    (Fulfilled sample_completed) no_parts_left.

(** The copy of part 2 never settles. *)
Definition client_pending_part_2 : S3Client :=
  sample_client
    (λ part_number,
       if (part_number =? 2)%nat then Pending
       else Fulfilled (sample_copied part_number))
    (Fulfilled sample_completed) no_parts_left.

(** * Verification *)

(** ** Sequences of ranges *)

Lemma tiles_snoc lo mid last rs :
  tiles lo mid rs → mid ≤ last → tiles lo (last + 1) (rs ++ [(mid, last)]).
Proof.
  revert lo. induction rs as [|[a b] rs IH]; simpl; intros lo Hrs Hle.
  - subst. auto.
  - destruct Hrs as (-> & Hab & Hrest). auto.
Qed.

Lemma tiles_le lo hi rs : tiles lo hi rs → lo ≤ hi.
Proof.
  revert lo. induction rs as [|[a b] rs IH]; simpl; intros lo Hrs.
  - lia.
  - destruct Hrs as (-> & Hab & Hrest). apply IH in Hrest. lia.
Qed.

Lemma tiles_elem lo hi rs r :
  tiles lo hi rs → r ∈ rs → lo ≤ r.1 ∧ r.1 ≤ r.2 ∧ r.2 < hi.
Proof.
  revert lo. induction rs as [|[a b] rs IH]; simpl; intros lo Hrs Hin.
  - inversion Hin.
  - destruct Hrs as (-> & Hab & Hrest).
    apply elem_of_cons in Hin as [-> | Hin].
    + simpl. apply tiles_le in Hrest. lia.
    + destruct (IH _ Hrest Hin) as (? & ? & ?). lia.
Qed.

Lemma tiles_contiguous lo hi rs : tiles lo hi rs → contiguous rs.
Proof.
  revert lo. induction rs as [|[a b] rs IH]; intros lo Hrs i r1 r2 H1 H2.
  - discriminate.
  - destruct Hrs as (-> & Hab & Hrest). destruct i as [|i].
    + simpl in H1, H2. injection H1 as <-. simpl.
      destruct rs as [|[c d] rs]; [discriminate|].
      injection H2 as <-. destruct Hrest as (-> & _). reflexivity.
    + exact (IH _ Hrest i r1 r2 H1 H2).
Qed.

Lemma tiles_non_overlapping lo hi rs : tiles lo hi rs → non_overlapping rs.
Proof.
  revert lo. induction rs as [|[a b] rs IH]; intros lo Hrs i j r1 r2 Hij H1 H2.
  - discriminate.
  - destruct Hrs as (-> & Hab & Hrest). destruct j as [|j]; [lia|].
    simpl in H2. destruct i as [|i].
    + injection H1 as <-. simpl.
      assert (r2 ∈ rs) as Hin by (apply list_elem_of_lookup; eauto).
      destruct (tiles_elem _ _ _ _ Hrest Hin) as (? & ? & ?). lia.
    + simpl in H1. apply (IH _ Hrest i j r1 r2); [lia|done..].
Qed.

Lemma tiles_union lo hi rs : tiles lo hi rs → union_is rs lo (hi - 1).
Proof.
  revert lo. induction rs as [|[a b] rs IH]; simpl; intros lo Hrs x.
  - subst. split; [|lia]. intros (r & Hin & _). inversion Hin.
  - destruct Hrs as (-> & Hab & Hrest). specialize (IH _ Hrest x).
    pose proof (tiles_le _ _ _ Hrest). split.
    + intros (r & Hin & Hx). apply elem_of_cons in Hin as [-> | Hin].
      * simpl in Hx. lia.
      * assert (b + 1 ≤ x ≤ hi - 1) by (apply IH; eauto). lia.
    + intros Hx. destruct (decide (x ≤ b)) as [Hxb | Hxb].
      * exists (lo, b). split; [left | simpl; lia].
      * destruct IH as [_ IH]. destruct IH as (r & Hin & Hr); [lia|].
        exists r. split; [by right | done].
Qed.

(** ** The planner *)

(** The texts are the bounds, printed. *)
Lemma partitions_loop_fmap {P} (mk : Z → Z → P) fuel index n c r
    (acc : list (Z * Z)) :
  partitions_loop mk fuel index n c r ((λ p, mk p.1 p.2) <$> acc)
  = (((λ p, mk p.1 p.2) <$> (partitions_loop pair fuel index n c r acc).1),
     (partitions_loop pair fuel index n c r acc).2).
Proof.
  revert index acc. induction fuel as [|fuel IH]; intros index acc; simpl.
  - reflexivity.
  - destruct (index <? n); [|reflexivity].
    rewrite <- IH. f_equal. rewrite fmap_app. simpl.
    by destruct ((index + 1 =? n) && (r <? COPY_PART_SIZE_MINIMUM_BYTES)).
Qed.

Lemma calculatePartitions_fmap {P} (mk : Z → Z → P) object_size part_size :
  calculatePartitions mk object_size part_size
  = (λ p, mk p.1 p.2) <$> partitionBounds object_size part_size.
Proof.
  unfold partitionBounds, calculatePartitions.
  pose proof (partitions_loop_fmap mk
    (Z.to_nat (object_size / number_or part_size DEFAULT_COPY_PART_SIZE_BYTES))
    0 (object_size / number_or part_size DEFAULT_COPY_PART_SIZE_BYTES)
    (number_or part_size DEFAULT_COPY_PART_SIZE_BYTES)
    (Z.rem object_size (number_or part_size DEFAULT_COPY_PART_SIZE_BYTES)) [])
    as Hloop.
  simpl in Hloop. rewrite Hloop.
  destruct (partitions_loop pair _ _ _ _ _ _) as [parts index]. simpl.
  destruct (_ <=? _); [|reflexivity].
  by rewrite fmap_app.
Qed.

(** The loop leaves as soon as its condition fails, with [index] at the number
    of partitions, and what it pushed tiles the bytes up to where its last
    partition ends. *)
Lemma partitions_loop_tiles fuel index n c r acc lo :
  0 < c → 0 ≤ r → Z.of_nat fuel = n - index → 0 ≤ index →
  tiles lo (index * c) acc →
  (partitions_loop pair fuel index n c r acc).2 = n
  ∧ tiles lo
      (if (index <? n) && (r <? COPY_PART_SIZE_MINIMUM_BYTES)
       then n * c + r else n * c)
      (partitions_loop pair fuel index n c r acc).1.
Proof.
  intros Hc Hr. revert index acc.
  induction fuel as [|fuel IH]; intros index acc Hfuel Hindex Hacc; simpl.
  - assert (index = n) as -> by lia. rewrite Z.ltb_irrefl. simpl. auto.
  - assert (index < n) as Hlt by lia.
    destruct (Z.ltb_spec index n) as [_|]; [|lia]. simpl.
    destruct (Z.eqb_spec (index + 1) n) as [Heq | Hne]; simpl.
    + assert (fuel = 0%nat) as -> by lia. simpl. split; [done|].
      destruct (Z.ltb_spec r COPY_PART_SIZE_MINIMUM_BYTES).
      * replace (n * c + r) with ((index + 1) * c + r - 1 + 1) by (subst n; lia).
        apply tiles_snoc; [done | nia].
      * replace (n * c) with ((index + 1) * c - 1 + 1) by (subst n; lia).
        apply tiles_snoc; [done | nia].
    + destruct (IH (index + 1) (acc ++ [(index * c, (index + 1) * c - 1)]))
        as [Hidx Htiles]; [lia | lia | |].
      * replace ((index + 1) * c) with ((index + 1) * c - 1 + 1) at 1 by lia.
        apply tiles_snoc; [done | nia].
      * split; [done|].
        destruct (Z.ltb_spec (index + 1) n) as [_|]; [|lia]. exact Htiles.
Qed.

(** The fuel the planner gives the loop never cuts it short: the loop is left
    with its condition [index < numOfPartitions] false. *)
Lemma partitions_loop_exit {P} (mk : Z → Z → P) fuel index n c r acc :
  Z.of_nat fuel = Z.max 0 (n - index) →
  n ≤ (partitions_loop mk fuel index n c r acc).2.
Proof.
  revert index acc. induction fuel as [|fuel IH]; intros index acc Hfuel; simpl.
  - lia.
  - destruct (Z.ltb_spec index n); [|simpl; lia]. apply IH. lia.
Qed.

Lemma calculatePartitions_loop_exit {P} (mk : Z → Z → P) n c r :
  n ≤ (partitions_loop mk (Z.to_nat n) 0 n c r []).2.
Proof. apply partitions_loop_exit. lia. Qed.

(** An object below both the part size and the minimum gets no partition. *)
Lemma calculatePartitions_small {P} (mk : Z → Z → P) object_size part_size :
  0 < number_or part_size DEFAULT_COPY_PART_SIZE_BYTES →
  object_size < number_or part_size DEFAULT_COPY_PART_SIZE_BYTES →
  object_size < COPY_PART_SIZE_MINIMUM_BYTES →
  calculatePartitions mk object_size part_size = [].
Proof.
  intros Hc Hsmall Hmin. unfold calculatePartitions.
  set (c := number_or part_size DEFAULT_COPY_PART_SIZE_BYTES) in *.
  assert (0 < COPY_PART_SIZE_MINIMUM_BYTES) as Hpos by done.
  assert (Z.rem object_size c < COPY_PART_SIZE_MINIMUM_BYTES) as Hrem.
  { destruct (decide (0 ≤ object_size)).
    - rewrite Z.rem_small; lia.
    - pose proof (Z.rem_nonpos object_size c). lia. }
  assert (object_size / c ≤ 0) as Hn.
  { destruct (decide (0 ≤ object_size)).
    - rewrite Z.div_small; lia.
    - apply Z.lt_le_incl, Z.div_lt_upper_bound; lia. }
  replace (Z.to_nat (object_size / c)) with 0%nat by lia. simpl.
  destruct (Z.leb_spec COPY_PART_SIZE_MINIMUM_BYTES (Z.rem object_size c)); [lia|].
  reflexivity.
Qed.

(** An object of at least the minimum, cut in parts of at least the minimum,
    is tiled by its plan. *)
Lemma partitionBounds_tiles object_size part_size :
  COPY_PART_SIZE_MINIMUM_BYTES ≤ object_size →
  COPY_PART_SIZE_MINIMUM_BYTES ≤ number_or part_size DEFAULT_COPY_PART_SIZE_BYTES →
  partitionBounds object_size part_size ≠ []
  ∧ tiles 0 object_size (partitionBounds object_size part_size).
Proof.
  intros Hsize Hpart. unfold partitionBounds, calculatePartitions.
  set (c := number_or part_size DEFAULT_COPY_PART_SIZE_BYTES) in *.
  assert (0 < COPY_PART_SIZE_MINIMUM_BYTES) as Hmin by done.
  assert (0 < c) as Hc by lia.
  rewrite Z.rem_mod_nonneg by lia.
  pose proof (Z.div_mod object_size c ltac:(lia)) as Hdm.
  pose proof (Z.mod_pos_bound object_size c Hc) as Hr.
  pose proof (Z.div_pos object_size c ltac:(lia) Hc) as Hn.
  set (n := object_size / c) in *. set (r := object_size `mod` c) in *.
  destruct (partitions_loop_tiles (Z.to_nat n) 0 n c r [] 0)
    as [Hidx Htiles]; [lia | lia | lia | lia | simpl; lia |].
  destruct (partitions_loop pair (Z.to_nat n) 0 n c r []) as [parts index].
  simpl in Hidx, Htiles. subst index.
  destruct (Z.leb_spec COPY_PART_SIZE_MINIMUM_BYTES r) as [Hbig | Hless].
  - destruct (Z.ltb_spec r COPY_PART_SIZE_MINIMUM_BYTES); [lia|].
    rewrite andb_false_r in Htiles. split.
    + intros Hnil. by apply app_eq_nil in Hnil as [_ ?].
    + replace object_size with (n * c + r - 1 + 1) at 1 by lia.
      apply tiles_snoc; [done | lia].
  - destruct (Z.ltb_spec r COPY_PART_SIZE_MINIMUM_BYTES); [|lia].
    assert (0 < n) by nia.
    destruct (Z.ltb_spec 0 n); [|lia]. simpl in Htiles.
    replace (n * c + r) with object_size in Htiles by lia. split; [|done].
    intros ->. simpl in Htiles. lia.
Qed.

(** On safe sizes every number the planner forms — the quotient, the
    remainder, each product of an index and the part size, each bound before
    and after its [- 1] — is a safe integer, so that the arithmetic of the
    source is exact there. *)
Lemma planner_numbers_safe object_size c :
  0 ≤ object_size ≤ MAX_SAFE_INTEGER →
  0 < c ≤ MAX_SAFE_INTEGER →
  isSafeInteger (object_size / c)
  ∧ isSafeInteger (Z.rem object_size c)
  ∧ isSafeInteger (object_size / c * c)
  ∧ isSafeInteger (object_size / c * c + Z.rem object_size c)
  ∧ isSafeInteger (object_size / c * c + Z.rem object_size c - 1)
  ∧ ∀ index,
      0 ≤ index < object_size / c →
      isSafeInteger (index * c)
      ∧ isSafeInteger ((index + 1) * c)
      ∧ isSafeInteger ((index + 1) * c - 1)
      ∧ isSafeInteger ((index + 1) * c + Z.rem object_size c)
      ∧ isSafeInteger ((index + 1) * c + Z.rem object_size c - 1).
Proof.
  intros Hsize Hc. unfold isSafeInteger.
  assert (0 < MAX_SAFE_INTEGER) by done.
  rewrite Z.rem_mod_nonneg by lia.
  pose proof (Z.div_mod object_size c ltac:(lia)).
  pose proof (Z.mod_pos_bound object_size c ltac:(lia)).
  pose proof (Z.div_pos object_size c ltac:(lia) ltac:(lia)).
  repeat split; try nia. all: intros; nia.
Qed.

(** ** Joining promises *)

Lemma Promise_all_settle_fulfilled {A} (all_values : list A) completion
    (values : list (option A)) :
  length values = length all_values →
  (∀ i v, values !! i = Some (Some v) → all_values !! i = Some v) →
  (∀ i, (i < length all_values)%nat →
        i ∈ completion ∨ ∃ v, values !! i = Some (Some v)) →
  Promise_all_settle (Fulfilled <$> all_values) completion values
  = Fulfilled all_values.
Proof.
  revert values.
  induction completion as [|index later IH]; intros values Hlen Hsound Hall.
  - assert (values = Some <$> all_values) as ->.
    { apply list_eq. intros i. rewrite list_lookup_fmap.
      destruct (decide (i < length all_values)%nat) as [Hi | Hi].
      - destruct (Hall i Hi) as [Hin | [v Hv]]; [inversion Hin|].
        rewrite Hv, (Hsound _ _ Hv). reflexivity.
      - rewrite !lookup_ge_None_2 by lia. reflexivity. }
    simpl. rewrite mapM_fmap_Some by done. reflexivity.
  - simpl. rewrite list_lookup_fmap.
    destruct (all_values !! index) as [v|] eqn:Hindex; simpl.
    + assert (index < length values)%nat as Hlt.
      { rewrite Hlen. by eapply lookup_lt_Some. }
      apply IH.
      * by rewrite length_insert.
      * intros i w Hi. destruct (decide (i = index)) as [-> | Hne].
        -- rewrite list_lookup_insert_eq in Hi by done. congruence.
        -- rewrite list_lookup_insert_ne in Hi by done. eauto.
      * intros i Hi. destruct (decide (i = index)) as [-> | Hne].
        -- right. exists v. by rewrite list_lookup_insert_eq.
        -- destruct (Hall i Hi) as [Hin | [w Hw]].
           ++ apply elem_of_cons in Hin as [? | ?]; [done | by left].
           ++ right. exists w. by rewrite list_lookup_insert_ne.
    + apply IH; [done.. |]. intros i Hi.
      destruct (Hall i Hi) as [Hin | ?]; [|by right].
      apply elem_of_cons in Hin as [-> | ?]; [|by left].
      apply lookup_lt_is_Some_2 in Hi as [? ?]. congruence.
Qed.

(** Once every promise is fulfilled and has settled, the joined promise holds
    the values in the order of the promises, whatever the order of settling. *)
Lemma Promise_all_fulfilled {A} (all_values : list A) completion :
  completion ≡ₚ seq 0 (length all_values) →
  Promise_all (Fulfilled <$> all_values) completion = Fulfilled all_values.
Proof.
  intros Hperm. unfold Promise_all. apply Promise_all_settle_fulfilled.
  - by rewrite length_replicate, length_fmap.
  - intros i v Hi. apply lookup_replicate in Hi as [? _]. done.
  - intros i Hi. left. rewrite Hperm. apply elem_of_seq. lia.
Qed.

(** A rejected promise that settles rejects the joined promise. *)
Lemma Promise_all_settle_rejected {A} (promises : list (Promise A)) completion
    values i reason :
  i ∈ completion → promises !! i = Some (Rejected reason) →
  ∃ first, Promise_all_settle promises completion values = Rejected first.
Proof.
  intros Hin Hi. revert values.
  induction completion as [|index later IH]; intros values; [inversion Hin|].
  simpl. apply elem_of_cons in Hin as [<- | Hin].
  - rewrite Hi. eauto.
  - destruct (promises !! index) as [[| |]|]; eauto.
Qed.

Lemma Promise_all_rejected {A} (promises : list (Promise A)) completion i reason :
  i ∈ completion → promises !! i = Some (Rejected reason) →
  ∃ first, Promise_all promises completion = Rejected first.
Proof. apply Promise_all_settle_rejected. Qed.

(** ** The completion manifest *)

Lemma prepareResults_forEach_spec index etags resultArray :
  prepareResults_forEach index (copy_output <$> etags) resultArray
  = inr (resultArray
           ++ imap (λ i etag,
                      {| CompleteMultipartUpload.ETag := etag;
                         CompleteMultipartUpload.PartNumber :=
                           (index + i + 1)%nat |}) etags).
Proof.
  revert index resultArray.
  induction etags as [|etag etags IH]; intros index resultArray; simpl.
  - by rewrite app_nil_r.
  - rewrite IH, <- app_assoc. simpl. do 3 f_equal.
    + by rewrite Nat.add_0_r.
    + apply imap_ext. intros i x _. simpl. do 2 f_equal. lia.
Qed.

Lemma prepareResultsForCopyCompletion_spec etags :
  prepareResultsForCopyCompletion (copy_output <$> etags)
  = inr (ordered_manifest etags).
Proof. apply prepareResults_forEach_spec. Qed.

Lemma ordered_manifest_numbers etags :
  CompleteMultipartUpload.PartNumber <$> ordered_manifest etags
  = seq 1 (length etags).
Proof.
  unfold ordered_manifest. rewrite fmap_imap.
  rewrite <- fmap_S_seq, <- (imap_seq_0 etags S).
  apply imap_ext. intros i x _. simpl. lia.
Qed.

(** ** The requests of a run *)

Section Runs.
Variable client : S3Client.
Variable encodeURIComponent : string → string.
Variable completion : list nat.

Lemma copyParts_forEach_spec sb db ok name uid index ranges started :
  copyParts_forEach client encodeURIComponent sb db ok name uid index ranges
    started
  = (started
       ++ imap (λ i range,
                  uploadPartCopy client
                    (copyPart_params encodeURIComponent sb db
                       (index + i + 1)%nat ok range name uid)) ranges,
     imap (λ i range,
             UploadPartCopyCommand
               (copyPart_params encodeURIComponent sb db (index + i + 1)%nat
                  ok range name uid)) ranges).
Proof.
  revert index started.
  induction ranges as [|range ranges IH]; intros index started; simpl.
  - unfold io_ret. by rewrite app_nil_r.
  - unfold io_bind, copyPart. rewrite IH, <- app_assoc. simpl.
    rewrite Nat.add_0_r. f_equal.
    + do 2 f_equal. apply imap_ext. intros i x _. simpl. do 2 f_equal. lia.
    + f_equal. apply imap_ext. intros i x _. simpl. do 2 f_equal. lia.
Qed.

(** The part copies are all requested, in emission order, before anything
    else happens to the upload. *)
Lemma copyObjectMultipart_with_spec options upload_id :
  copyObjectMultipart_with client encodeURIComponent completion options upload_id
  = io_bind
      (part_promises client encodeURIComponent options upload_id,
       UploadPartCopyCommand
         <$> part_requests encodeURIComponent options upload_id)
      (λ copyPartFunctionsArray,
         io_bind
           (then_ (Promise_all copyPartFunctionsArray completion)
              (λ copy_results,
                 match prepareResultsForCopyCompletion copy_results with
                 | inl thrown => io_ret (Rejected thrown)
                 | inr manifest =>
                     completeMultipartCopy client
                       (Options.destination_bucket options) manifest
                       (Options.copied_object_name options) upload_id
                 end))
           (λ completed,
              catch_ completed (λ _,
                abortMultipartCopy client (Options.destination_bucket options)
                  (Options.copied_object_name options) upload_id))).
Proof.
  unfold copyObjectMultipart_with. rewrite copyParts_forEach_spec.
  unfold part_promises, part_requests, part_request, ranges_of.
  rewrite !fmap_imap. reflexivity.
Qed.

(** When a part copy has rejected the join, the abort procedure follows the
    copy requests and decides the outcome. *)
Lemma copyObjectMultipart_with_rejected options upload_id reason :
  Promise_all (part_promises client encodeURIComponent options upload_id)
    completion = Rejected reason →
  copyObjectMultipart_with client encodeURIComponent completion options upload_id
  = (outcome
       (abortMultipartCopy client (Options.destination_bucket options)
          (Options.copied_object_name options) upload_id),
     (UploadPartCopyCommand
        <$> part_requests encodeURIComponent options upload_id)
     ++ sent
          (abortMultipartCopy (A:=CompleteMultipartUpload.Output) client
             (Options.destination_bucket options)
             (Options.copied_object_name options) upload_id)).
Proof.
  intros Hall. rewrite copyObjectMultipart_with_spec.
  unfold io_bind at 1. rewrite Hall. unfold io_bind at 1. simpl.
  destruct (abortMultipartCopy _ _ _ _) as [result requests]. reflexivity.
Qed.

(** When every part copy succeeded, the complete request follows the copy
    requests; its rejection starts the abort procedure, whose outcome replaces
    it. *)
Lemma copyObjectMultipart_with_fulfilled options upload_id etags :
  Promise_all (part_promises client encodeURIComponent options upload_id)
    completion = Fulfilled (copy_output <$> etags) →
  copyObjectMultipart_with client encodeURIComponent completion options upload_id
  = match
      completeMultipartUpload client
        (complete_request options upload_id (ordered_manifest etags))
    with
    | Rejected _ =>
        (outcome
           (abortMultipartCopy client (Options.destination_bucket options)
              (Options.copied_object_name options) upload_id),
         (UploadPartCopyCommand
            <$> part_requests encodeURIComponent options upload_id)
         ++ CompleteMultipartUploadCommand
              (complete_request options upload_id (ordered_manifest etags))
         :: sent
              (abortMultipartCopy (A:=CompleteMultipartUpload.Output) client
                 (Options.destination_bucket options)
                 (Options.copied_object_name options) upload_id))
    | answer =>
        (answer,
         (UploadPartCopyCommand
            <$> part_requests encodeURIComponent options upload_id)
         ++ [CompleteMultipartUploadCommand
               (complete_request options upload_id (ordered_manifest etags))])
    end.
Proof.
  intros Hall. rewrite copyObjectMultipart_with_spec.
  unfold io_bind at 1. rewrite Hall. unfold io_bind at 1. simpl.
  rewrite prepareResultsForCopyCompletion_spec.
  unfold completeMultipartCopy, complete_request.
  destruct (completeMultipartUpload client _) as [| answer | reason]; simpl;
    try reflexivity.
  destruct (abortMultipartCopy _ _ _ _) as [result requests]. reflexivity.
Qed.

(** The initiate request is the first thing a run sends, and a run goes on
    only when it is fulfilled. *)
Lemma copyObjectMultipart_spec options :
  copyObjectMultipart client encodeURIComponent completion options
  = match createMultipartUpload client (initiate_request options) with
    | Fulfilled response =>
        let rest :=
          copyObjectMultipart_with client encodeURIComponent completion options
            (CreateMultipartUpload.UploadId response) in
        (outcome rest,
         CreateMultipartUploadCommand (initiate_request options) :: sent rest)
    | Rejected reason =>
        (Rejected reason, [CreateMultipartUploadCommand (initiate_request options)])
    | Pending =>
        (Pending, [CreateMultipartUploadCommand (initiate_request options)])
    end.
Proof.
  unfold copyObjectMultipart, initiateMultipartCopy, initiate_request.
  destruct (createMultipartUpload client _) as [| response | reason]; simpl;
    try reflexivity.
  destruct (copyObjectMultipart_with _ _ _ _ _) as [result requests].
  reflexivity.
Qed.

(** *** The abort procedure *)

Lemma abortMultipartCopy_sent {A} db name uid :
  sent (abortMultipartCopy (A:=A) client db name uid)
  = AbortMultipartUploadCommand (abortMultipartCopy_params db name uid)
    :: match abortMultipartUpload client (abortMultipartCopy_params db name uid)
       with
       | Fulfilled _ => [ListPartsCommand (abortMultipartCopy_params db name uid)]
       | _ => []
       end.
Proof.
  unfold abortMultipartCopy, sent.
  destruct (abortMultipartUpload client _) as [| [] | reason]; simpl;
    try reflexivity.
  destruct (listParts client _) as [| parts_list | reason]; simpl;
    try reflexivity.
  destruct (ListParts.Parts parts_list) as [[|part parts]|]; reflexivity.
Qed.

Lemma abortMultipartCopy_not_fulfilled {A} db name uid (value : A) :
  outcome (abortMultipartCopy client db name uid) ≠ Fulfilled value.
Proof.
  unfold abortMultipartCopy, outcome.
  destruct (abortMultipartUpload client _) as [| [] | reason]; simpl;
    try discriminate.
  destruct (listParts client _) as [| parts_list | reason]; simpl;
    try discriminate.
  destruct (ListParts.Parts parts_list) as [[|part parts]|]; discriminate.
Qed.

Lemma abortMultipartCopy_listed {A} db name uid done_ parts_list parts :
  abortMultipartUpload client (abortMultipartCopy_params db name uid)
    = Fulfilled done_ →
  listParts client (abortMultipartCopy_params db name uid)
    = Fulfilled parts_list →
  ListParts.Parts parts_list = Some parts →
  outcome (abortMultipartCopy (A:=A) client db name uid)
  = Rejected
      (match parts with
       | [] =>
           Error "multipart copy aborted"
             (DetailsParams (abortMultipartCopy_params db name uid))
       | _ :: _ =>
           Error "Abort procedure passed but copy parts were not removed"
             (DetailsPartsList parts_list)
       end).
Proof.
  intros Habort Hlist Hparts. unfold abortMultipartCopy, outcome.
  rewrite Habort. simpl. rewrite Hlist. simpl. rewrite Hparts.
  destruct parts; reflexivity.
Qed.
End Runs.

(** ** The plans of the specification's examples and its coverage property *)

(** C1, as stated, fails: an object of 3,000,000 bytes with a part size of
    50,000,000 bytes satisfies the claim's conditions, and its plan is empty,
    so it is neither non-empty nor a cover of the object. *)
Lemma small_object_plan_not_a_cover :
  0 < 3000000
  ∧ COPY_PART_SIZE_MINIMUM_BYTES
      ≤ number_or (Some 50000000) DEFAULT_COPY_PART_SIZE_BYTES
  ∧ ¬ plan_covers_object 3000000 (Some 50000000).
Proof.
  split; [done|]. split; [done|].
  intros (_ & Hnonempty & _). by apply Hnonempty.
Qed.

(** C1, amended: for every object_size of at least the 5,242,880-byte minimum
    (rather than every object_size > 0) and every part size of at least that
    minimum, both safe integers (at most 2^53 - 1, where the arithmetic of
    the source is exact), the ranges of the plan are the printed bounds, and
    they are non-empty, contiguous, non-overlapping, with union exactly
    [0, object_size - 1]. *)
Theorem plan_covers_object_from_minimum object_size copy_part_size_bytes :
  COPY_PART_SIZE_MINIMUM_BYTES ≤ object_size ≤ MAX_SAFE_INTEGER →
  COPY_PART_SIZE_MINIMUM_BYTES
    ≤ number_or copy_part_size_bytes DEFAULT_COPY_PART_SIZE_BYTES
    ≤ MAX_SAFE_INTEGER →
  plan_covers_object object_size copy_part_size_bytes.
Proof.
  intros [Hsize _] [Hpart _].
  destruct (partitionBounds_tiles object_size copy_part_size_bytes Hsize Hpart)
    as [Hnonempty Htiles].
  unfold plan_covers_object. split; [apply calculatePartitions_fmap|].
  split; [done|]. split; [by eapply tiles_contiguous|].
  split; [by eapply tiles_non_overlapping|]. by apply tiles_union.
Qed.

Lemma plan_covers_object_from_minimum_witness :
  plan_covers_object 120000000 (Some 50000000).
Proof.
  apply (plan_covers_object_from_minimum 120000000 (Some 50000000)).
  - split; vm_compute; discriminate.
  - split; vm_compute; discriminate.
Defined.

(** C4, as stated, fails: for 3,000,000 bytes and the default part size the
    planner does not emit the single range [0, 2999999]. *)
Lemma small_object_not_single_range :
  partitionBounds 3000000 None ≠ [(0, 2999999)]
  ∧ calculatePartitionsRangeArray 3000000 None ≠ ["0-2999999"].
Proof. split; discriminate. Qed.

(** C4, amended: for every object_size with 0 < object_size < 5,242,880 and
    the default part size, the planner emits no range at all; in particular
    the plan of 3,000,000 bytes is empty. *)
Theorem small_object_no_range object_size :
  0 < object_size < COPY_PART_SIZE_MINIMUM_BYTES →
  partitionBounds object_size None = []
  ∧ calculatePartitionsRangeArray object_size None = [].
Proof.
  intros [Hpos Hsmall].
  assert (COPY_PART_SIZE_MINIMUM_BYTES < DEFAULT_COPY_PART_SIZE_BYTES) by done.
  split; apply calculatePartitions_small; simpl; lia || done.
Qed.

Lemma small_object_no_range_witness :
  partitionBounds 3000000 None = []
  ∧ calculatePartitionsRangeArray 3000000 None = [].
Proof.
  apply (small_object_no_range 3000000).
  split; vm_compute; reflexivity.
Defined.

(** C5, as stated, fails: 120,000,000 bytes in parts of 50,000,000 are not
    planned as the two ranges [0, 49999999] and [50000000, 119999999]. *)
Lemma remainder_above_minimum_not_two_ranges :
  partitionBounds 120000000 (Some 50000000)
    ≠ [(0, 49999999); (50000000, 119999999)]
  ∧ calculatePartitionsRangeArray 120000000 (Some 50000000)
    ≠ ["0-49999999"; "50000000-119999999"].
Proof. split; discriminate. Qed.

(** C5, amended: for object_size = 120,000,000 and part_size = 50,000,000 the
    planner produces exactly 3 ranges, [0, 49999999], [50000000, 99999999] and
    [100000000, 119999999]: the remainder of 20,000,000 bytes is a separate
    final part. *)
Theorem remainder_above_minimum_three_ranges :
  partitionBounds 120000000 (Some 50000000)
    = [(0, 49999999); (50000000, 99999999); (100000000, 119999999)]
  ∧ calculatePartitionsRangeArray 120000000 (Some 50000000)
    = ["0-49999999"; "50000000-99999999"; "100000000-119999999"].
Proof. split; vm_compute; reflexivity. Qed.

(** C6: for object_size = 100,000,004 and part_size = 50,000,000 the planner
    produces exactly the two ranges [0, 49999999] and [50000000, 100000003]:
    the last slice absorbs the remainder of 4 bytes and no trailing range is
    emitted. *)
Theorem remainder_below_minimum_absorbed :
  partitionBounds 100000004 (Some 50000000)
    = [(0, 49999999); (50000000, 100000003)]
  ∧ calculatePartitionsRangeArray 100000004 (Some 50000000)
    = ["0-49999999"; "50000000-100000003"].
Proof. split; vm_compute; reflexivity. Qed.

(** ** Runs of [copyObjectMultipart] *)

(** C10: for every object_size smaller than both the effective part size and
    the 5,242,880-byte minimum, the planner returns the empty list; after a
    successful initiate the run sends no copy-part request and goes straight
    to the complete request, with an empty parts manifest.  The object size
    is any integer; the effective part size, a byte count, is positive. *)
Theorem small_object_completes_with_empty_manifest client encodeURIComponent
    completion options response :
  0 < number_or (Options.copy_part_size_bytes options)
        DEFAULT_COPY_PART_SIZE_BYTES →
  Options.object_size options
    < number_or (Options.copy_part_size_bytes options)
        DEFAULT_COPY_PART_SIZE_BYTES →
  Options.object_size options < COPY_PART_SIZE_MINIMUM_BYTES →
  createMultipartUpload client (initiate_request options) = Fulfilled response →
  calculatePartitionsRangeArray (Options.object_size options)
    (Options.copy_part_size_bytes options) = []
  ∧ (∃ rest,
       sent (copyObjectMultipart client encodeURIComponent completion options)
       = CreateMultipartUploadCommand (initiate_request options)
         :: CompleteMultipartUploadCommand
              (complete_request options
                 (CreateMultipartUpload.UploadId response) [])
         :: rest)
  ∧ ∀ params,
      UploadPartCopyCommand params
        ∉ sent (copyObjectMultipart client encodeURIComponent completion options).
Proof.
  intros Hpositive Hpart Hmin Hcreate.
  assert (calculatePartitionsRangeArray (Options.object_size options)
            (Options.copy_part_size_bytes options) = []) as Hnone
    by (by apply calculatePartitions_small).
  split; [exact Hnone|].
  rewrite copyObjectMultipart_spec, Hcreate. cbn [sent outcome fst snd].
  set (upload_id := CreateMultipartUpload.UploadId response).
  assert (part_requests encodeURIComponent options upload_id = []) as Hrequests.
  { unfold part_requests, ranges_of. by rewrite Hnone. }
  assert (Promise_all
            (part_promises client encodeURIComponent options upload_id)
            completion = Fulfilled (copy_output <$> [])) as Hall.
  { unfold part_promises. rewrite Hrequests.
    apply (Promise_all_settle_fulfilled []); [done | |].
    - intros i v Hi. by destruct i.
    - simpl. intros i Hi. lia. }
  rewrite (copyObjectMultipart_with_fulfilled _ _ _ _ _ _ Hall), Hrequests.
  change (ordered_manifest []) with (@nil CompleteMultipartUpload.CompletedPart).
  destruct (completeMultipartUpload client _) as [| answer | reason];
    cbn [sent outcome fst snd fmap list_fmap app].
  - split; [by exists []|]. intros params Hin.
    repeat (apply elem_of_cons in Hin as [? | Hin]; [done|]). inversion Hin.
  - split; [by exists []|]. intros params Hin.
    repeat (apply elem_of_cons in Hin as [? | Hin]; [done|]). inversion Hin.
  - split; [eauto|]. intros params Hin.
    rewrite abortMultipartCopy_sent in Hin.
    destruct (abortMultipartUpload client _);
      repeat (apply elem_of_cons in Hin as [? | Hin]; [done|]); inversion Hin.
Qed.

Lemma small_object_completes_with_empty_manifest_witness :
  calculatePartitionsRangeArray 3000000 None = []
  ∧ (∃ rest,
       sent (copyObjectMultipart accepting_client id [] (sample_options 3000000 None))
       = CreateMultipartUploadCommand
           (initiate_request (sample_options 3000000 None))
         :: CompleteMultipartUploadCommand
              (complete_request (sample_options 3000000 None)
                 (Some "upload-1") [])
         :: rest)
  ∧ ∀ params,
      UploadPartCopyCommand params
        ∉ sent (copyObjectMultipart accepting_client id []
                  (sample_options 3000000 None)).
Proof.
  apply (small_object_completes_with_empty_manifest accepting_client id []
           (sample_options 3000000 None)
           {| CreateMultipartUpload.UploadId := Some "upload-1" |}).
  - vm_compute. reflexivity.
  - vm_compute. reflexivity.
  - vm_compute. reflexivity.
  - reflexivity.
Defined.

(** C7: when all part copies succeed, whatever the order in which they
    completed, the complete request that is sent, for the destination and the
    upload of the run, carries in its MultipartUpload.Parts one entry per
    range, with part numbers exactly 1..N in ascending order, and the entry at
    the position of a range carries the entity tag its copy returned. *)
Theorem manifest_in_ascending_part_order client encodeURIComponent completion
    options response etags :
  createMultipartUpload client (initiate_request options) = Fulfilled response →
  part_promises client encodeURIComponent options
    (CreateMultipartUpload.UploadId response)
    = Fulfilled <$> (copy_output <$> etags) →
  completion ≡ₚ seq 0 (length etags) →
  ∃ params rest,
    sent (copyObjectMultipart client encodeURIComponent completion options)
    = CreateMultipartUploadCommand (initiate_request options)
      :: (UploadPartCopyCommand
            <$> part_requests encodeURIComponent options
                  (CreateMultipartUpload.UploadId response))
      ++ CompleteMultipartUploadCommand params :: rest
    ∧ CompleteMultipartUpload.Bucket params = Options.destination_bucket options
    ∧ CompleteMultipartUpload.Key params = Options.copied_object_name options
    ∧ CompleteMultipartUpload.UploadId params
      = CreateMultipartUpload.UploadId response
    ∧ length
        (CompleteMultipartUpload.Parts
           (CompleteMultipartUpload.MultipartUpload params))
      = length (ranges_of options)
    ∧ CompleteMultipartUpload.PartNumber
        <$> CompleteMultipartUpload.Parts
              (CompleteMultipartUpload.MultipartUpload params)
      = seq 1 (length (ranges_of options))
    ∧ ∀ index range,
        ranges_of options !! index = Some range →
        ∃ etag,
          uploadPartCopy client
            (part_request encodeURIComponent options
               (CreateMultipartUpload.UploadId response) index range)
          = Fulfilled (copy_output etag)
          ∧ CompleteMultipartUpload.Parts
              (CompleteMultipartUpload.MultipartUpload params) !! index
            = Some {| CompleteMultipartUpload.ETag := etag;
                      CompleteMultipartUpload.PartNumber := (index + 1)%nat |}.
Proof.
  intros Hcreate Hparts Hperm.
  set (upload_id := CreateMultipartUpload.UploadId response) in *.
  assert (length etags = length (ranges_of options)) as Hlength.
  { apply (f_equal length) in Hparts. unfold part_promises, part_requests in Hparts.
    by rewrite !length_fmap, length_imap in Hparts. }
  assert (Promise_all
            (part_promises client encodeURIComponent options upload_id)
            completion = Fulfilled (copy_output <$> etags)) as Hall.
  { rewrite Hparts. apply Promise_all_fulfilled. by rewrite length_fmap. }
  assert (∃ rest,
            sent (copyObjectMultipart client encodeURIComponent completion options)
            = CreateMultipartUploadCommand (initiate_request options)
              :: (UploadPartCopyCommand
                    <$> part_requests encodeURIComponent options upload_id)
              ++ CompleteMultipartUploadCommand
                   (complete_request options upload_id (ordered_manifest etags))
              :: rest) as [rest Hsent].
  { rewrite copyObjectMultipart_spec, Hcreate. cbn [sent outcome fst snd].
    fold upload_id.
    rewrite (copyObjectMultipart_with_fulfilled _ _ _ _ _ _ Hall).
    destruct (completeMultipartUpload client _); cbn [sent outcome fst snd];
      eauto. }
  exists (complete_request options upload_id (ordered_manifest etags)), rest.
  split; [exact Hsent|]. cbn.
  split; [reflexivity|]. split; [reflexivity|]. split; [reflexivity|].
  split; [unfold ordered_manifest; by rewrite length_imap|].
  split; [by rewrite ordered_manifest_numbers, Hlength|].
  intros index range Hrange.
  apply (f_equal (λ l, l !! index)) in Hparts.
  unfold part_promises, part_requests in Hparts.
  rewrite !list_lookup_fmap, list_lookup_imap, Hrange in Hparts.
  destruct (etags !! index) as [etag|] eqn:Hetag; [|discriminate].
  injection Hparts as Hcopy. exists etag. split; [exact Hcopy|].
  unfold ordered_manifest. by rewrite list_lookup_imap, Hetag.
Qed.

Lemma manifest_in_ascending_part_order_witness :
  ∃ params rest,
    sent (copyObjectMultipart accepting_client id [2; 1; 0]%nat
            (sample_options 120000000 None))
    = CreateMultipartUploadCommand
        (initiate_request (sample_options 120000000 None))
      :: (UploadPartCopyCommand
            <$> part_requests id (sample_options 120000000 None)
                  (Some "upload-1"))
      ++ CompleteMultipartUploadCommand params :: rest
    ∧ CompleteMultipartUpload.Bucket params
      = Options.destination_bucket (sample_options 120000000 None)
    ∧ CompleteMultipartUpload.Key params
      = Options.copied_object_name (sample_options 120000000 None)
    ∧ CompleteMultipartUpload.UploadId params = Some "upload-1"
    ∧ length
        (CompleteMultipartUpload.Parts
           (CompleteMultipartUpload.MultipartUpload params))
      = length (ranges_of (sample_options 120000000 None))
    ∧ CompleteMultipartUpload.PartNumber
        <$> CompleteMultipartUpload.Parts
              (CompleteMultipartUpload.MultipartUpload params)
      = seq 1 (length (ranges_of (sample_options 120000000 None)))
    ∧ ∀ index range,
        ranges_of (sample_options 120000000 None) !! index = Some range →
        ∃ etag,
          uploadPartCopy accepting_client
            (part_request id (sample_options 120000000 None) (Some "upload-1")
               index range)
          = Fulfilled (copy_output etag)
          ∧ CompleteMultipartUpload.Parts
              (CompleteMultipartUpload.MultipartUpload params) !! index
            = Some {| CompleteMultipartUpload.ETag := etag;
                      CompleteMultipartUpload.PartNumber := (index + 1)%nat |}.
Proof.
  apply (manifest_in_ascending_part_order accepting_client id [2; 1; 0]%nat
           (sample_options 120000000 None)
           {| CreateMultipartUpload.UploadId := Some "upload-1" |}
           [Some "etag-1"; Some "etag-2"; Some "etag-3"]).
  - reflexivity.
  - vm_compute. reflexivity.
  - simpl. symmetry. apply (Permutation_rev [0; 1; 2]%nat).
Defined.

(** C8: whenever a part copy fails, the run sends the abort request after the
    copy requests and, once the abort is accepted, the list-parts request; it
    never resolves successfully; with an empty listing it rejects with the
    "multipart copy aborted" error, and with a non-empty listing with the
    "Abort procedure passed but copy parts were not removed" error, whose
    details are the listing. *)
Theorem failed_part_copy_aborts client encodeURIComponent completion options
    response index reason :
  createMultipartUpload client (initiate_request options) = Fulfilled response →
  part_promises client encodeURIComponent options
    (CreateMultipartUpload.UploadId response) !! index
    = Some (Rejected reason) →
  index ∈ completion →
  (∀ value,
     outcome (copyObjectMultipart client encodeURIComponent completion options)
     ≠ Fulfilled value)
  ∧ (∃ rest,
       sent (copyObjectMultipart client encodeURIComponent completion options)
       = CreateMultipartUploadCommand (initiate_request options)
         :: (UploadPartCopyCommand
               <$> part_requests encodeURIComponent options
                     (CreateMultipartUpload.UploadId response))
         ++ AbortMultipartUploadCommand
              (upload_of options (CreateMultipartUpload.UploadId response))
         :: rest
       ∧ ∀ accepted,
           abortMultipartUpload client
             (upload_of options (CreateMultipartUpload.UploadId response))
           = Fulfilled accepted →
           rest
           = [ListPartsCommand
                (upload_of options (CreateMultipartUpload.UploadId response))])
  ∧ ∀ accepted parts_list parts,
      abortMultipartUpload client
        (upload_of options (CreateMultipartUpload.UploadId response))
      = Fulfilled accepted →
      listParts client
        (upload_of options (CreateMultipartUpload.UploadId response))
      = Fulfilled parts_list →
      ListParts.Parts parts_list = Some parts →
      (parts = [] →
       outcome (copyObjectMultipart client encodeURIComponent completion options)
       = Rejected
           (Error "multipart copy aborted"
              (DetailsParams
                 (upload_of options (CreateMultipartUpload.UploadId response)))))
      ∧ (parts ≠ [] →
         outcome
           (copyObjectMultipart client encodeURIComponent completion options)
         = Rejected
             (Error "Abort procedure passed but copy parts were not removed"
                (DetailsPartsList parts_list))).
Proof.
  intros Hcreate Hfailed Hsettles.
  destruct (Promise_all_rejected _ _ _ _ Hsettles Hfailed) as [first Hall].
  rewrite copyObjectMultipart_spec, Hcreate.
  rewrite (copyObjectMultipart_with_rejected _ _ _ _ _ _ Hall).
  unfold outcome at 1 3 4, sent at 1. cbn [fst snd].
  split; [|split].
  - intros value. apply abortMultipartCopy_not_fulfilled.
  - rewrite abortMultipartCopy_sent. eexists. split; [reflexivity|].
    intros accepted Haccepted. unfold upload_of in Haccepted.
    by rewrite Haccepted.
  - intros accepted parts_list parts Haccepted Hlisted Hparts.
    rewrite (abortMultipartCopy_listed _ _ _ _ _ _ _ Haccepted Hlisted Hparts).
    split; [by intros ->|]. intros Hleft. by destruct parts.
Qed.

Lemma failed_part_copy_aborts_witness :
  (∀ value,
     outcome (copyObjectMultipart (client_failing_part_2 "SlowDown") id
                [2; 1; 0]%nat (sample_options 120000000 None))
     ≠ Fulfilled value)
  ∧ (∃ rest,
       sent (copyObjectMultipart (client_failing_part_2 "SlowDown") id
               [2; 1; 0]%nat (sample_options 120000000 None))
       = CreateMultipartUploadCommand
           (initiate_request (sample_options 120000000 None))
         :: (UploadPartCopyCommand
               <$> part_requests id (sample_options 120000000 None)
                     (Some "upload-1"))
         ++ AbortMultipartUploadCommand
              (upload_of (sample_options 120000000 None) (Some "upload-1"))
         :: rest
       ∧ ∀ accepted,
           abortMultipartUpload (client_failing_part_2 "SlowDown")
             (upload_of (sample_options 120000000 None) (Some "upload-1"))
           = Fulfilled accepted →
           rest
           = [ListPartsCommand
                (upload_of (sample_options 120000000 None) (Some "upload-1"))])
  ∧ ∀ accepted parts_list parts,
      abortMultipartUpload (client_failing_part_2 "SlowDown")
        (upload_of (sample_options 120000000 None) (Some "upload-1"))
      = Fulfilled accepted →
      listParts (client_failing_part_2 "SlowDown")
        (upload_of (sample_options 120000000 None) (Some "upload-1"))
      = Fulfilled parts_list →
      ListParts.Parts parts_list = Some parts →
      (parts = [] →
       outcome (copyObjectMultipart (client_failing_part_2 "SlowDown") id
                  [2; 1; 0]%nat (sample_options 120000000 None))
       = Rejected
           (Error "multipart copy aborted"
              (DetailsParams
                 (upload_of (sample_options 120000000 None) (Some "upload-1")))))
      ∧ (parts ≠ [] →
         outcome (copyObjectMultipart (client_failing_part_2 "SlowDown") id
                    [2; 1; 0]%nat (sample_options 120000000 None))
         = Rejected
             (Error "Abort procedure passed but copy parts were not removed"
                (DetailsPartsList parts_list))).
Proof.
  apply (failed_part_copy_aborts (client_failing_part_2 "SlowDown") id
           [2; 1; 0]%nat (sample_options 120000000 None)
           {| CreateMultipartUpload.UploadId := Some "upload-1" |} 1%nat
           (ServiceException "SlowDown")).
  - reflexivity.
  - vm_compute. reflexivity.
  - apply list_elem_of_further, list_elem_of_here.
Defined.

(** C2, as stated, fails: with three part copies that all succeed and a
    complete request rejected with "InternalError", the run does not report
    that rejection as it is, and it sends an abort request. *)
Lemma failed_complete_not_reported_as_is :
  part_promises client_failing_complete id (sample_options 120000000 None)
    (Some "upload-1")
  = Fulfilled
      <$> (copy_output <$> [Some "etag-1"; Some "etag-2"; Some "etag-3"])
  ∧ completeMultipartUpload client_failing_complete
      (complete_request (sample_options 120000000 None) (Some "upload-1")
         (ordered_manifest [Some "etag-1"; Some "etag-2"; Some "etag-3"]))
    = Rejected (ServiceException "InternalError")
  ∧ AbortMultipartUploadCommand
      (upload_of (sample_options 120000000 None) (Some "upload-1"))
    ∈ sent (copyObjectMultipart client_failing_complete id [0; 1; 2]%nat
              (sample_options 120000000 None))
  ∧ ¬ reported_without_abort (ServiceException "InternalError")
        (copyObjectMultipart client_failing_complete id [0; 1; 2]%nat
           (sample_options 120000000 None)).
Proof.
  split; [by vm_compute|]. split; [reflexivity|]. split.
  - vm_compute. do 5 apply list_elem_of_further. apply list_elem_of_here.
  - intros [Hreported _]. vm_compute in Hreported. discriminate.
Qed.

(** C2, amended: if every part copy succeeds but the complete request fails,
    the run does not report that failure: it goes on with the abort request
    (and the list-parts request once the abort is accepted), and the caller
    receives the outcome of the abort procedure, which is never a success and
    is the "multipart copy aborted" error when the listing is empty. *)
Theorem failed_complete_aborts client encodeURIComponent completion options
    response etags reason :
  createMultipartUpload client (initiate_request options) = Fulfilled response →
  part_promises client encodeURIComponent options
    (CreateMultipartUpload.UploadId response)
    = Fulfilled <$> (copy_output <$> etags) →
  completion ≡ₚ seq 0 (length etags) →
  completeMultipartUpload client
    (complete_request options (CreateMultipartUpload.UploadId response)
       (ordered_manifest etags))
    = Rejected reason →
  sent (copyObjectMultipart client encodeURIComponent completion options)
  = CreateMultipartUploadCommand (initiate_request options)
    :: (UploadPartCopyCommand
          <$> part_requests encodeURIComponent options
                (CreateMultipartUpload.UploadId response))
    ++ CompleteMultipartUploadCommand
         (complete_request options (CreateMultipartUpload.UploadId response)
            (ordered_manifest etags))
    :: AbortMultipartUploadCommand
         (upload_of options (CreateMultipartUpload.UploadId response))
    :: match
         abortMultipartUpload client
           (upload_of options (CreateMultipartUpload.UploadId response))
       with
       | Fulfilled _ =>
           [ListPartsCommand
              (upload_of options (CreateMultipartUpload.UploadId response))]
       | _ => []
       end
  ∧ outcome (copyObjectMultipart client encodeURIComponent completion options)
    = outcome
        (abortMultipartCopy client (Options.destination_bucket options)
           (Options.copied_object_name options)
           (CreateMultipartUpload.UploadId response))
  ∧ (∀ value,
       outcome (copyObjectMultipart client encodeURIComponent completion options)
       ≠ Fulfilled value)
  ∧ ∀ accepted parts_list,
      abortMultipartUpload client
        (upload_of options (CreateMultipartUpload.UploadId response))
      = Fulfilled accepted →
      listParts client
        (upload_of options (CreateMultipartUpload.UploadId response))
      = Fulfilled parts_list →
      ListParts.Parts parts_list = Some [] →
      outcome (copyObjectMultipart client encodeURIComponent completion options)
      = Rejected
          (Error "multipart copy aborted"
             (DetailsParams
                (upload_of options (CreateMultipartUpload.UploadId response)))).
Proof.
  intros Hcreate Hparts Hperm Hcomplete.
  assert (Promise_all
            (part_promises client encodeURIComponent options
               (CreateMultipartUpload.UploadId response))
            completion = Fulfilled (copy_output <$> etags)) as Hall.
  { rewrite Hparts. apply Promise_all_fulfilled. by rewrite length_fmap. }
  assert (copyObjectMultipart client encodeURIComponent completion options
          = (outcome
               (abortMultipartCopy client (Options.destination_bucket options)
                  (Options.copied_object_name options)
                  (CreateMultipartUpload.UploadId response)),
             CreateMultipartUploadCommand (initiate_request options)
             :: (UploadPartCopyCommand
                   <$> part_requests encodeURIComponent options
                         (CreateMultipartUpload.UploadId response))
             ++ CompleteMultipartUploadCommand
                  (complete_request options
                     (CreateMultipartUpload.UploadId response)
                     (ordered_manifest etags))
             :: sent
                  (abortMultipartCopy (A:=CompleteMultipartUpload.Output) client
                     (Options.destination_bucket options)
                     (Options.copied_object_name options)
                     (CreateMultipartUpload.UploadId response)))) as ->.
  { rewrite copyObjectMultipart_spec, Hcreate.
    rewrite (copyObjectMultipart_with_fulfilled _ _ _ _ _ _ Hall), Hcomplete.
    reflexivity. }
  unfold outcome at 1 3 4, sent at 1. cbn [fst snd].
  split; [|split; [|split]].
  - by rewrite abortMultipartCopy_sent.
  - reflexivity.
  - intros value. apply abortMultipartCopy_not_fulfilled.
  - intros accepted parts_list Haccepted Hlisted Hparts_list.
    by rewrite (abortMultipartCopy_listed _ _ _ _ _ _ _ Haccepted Hlisted
                  Hparts_list).
Qed.

Lemma failed_complete_aborts_witness :
  outcome (copyObjectMultipart client_failing_complete id [2; 1; 0]%nat
             (sample_options 120000000 None))
  = outcome
      (abortMultipartCopy client_failing_complete "destination-bucket"
         "copies/big.bin" (Some "upload-1")).
Proof.
  apply (failed_complete_aborts client_failing_complete id [2; 1; 0]%nat
           (sample_options 120000000 None)
           {| CreateMultipartUpload.UploadId := Some "upload-1" |}
           [Some "etag-1"; Some "etag-2"; Some "etag-3"]
           (ServiceException "InternalError")).
  - reflexivity.
  - vm_compute. reflexivity.
  - simpl. symmetry. apply (Permutation_rev [0; 1; 2]%nat).
  - reflexivity.
Defined.

(** C3, as stated, fails: with object_size = 0, and with a part size of 1,000
    bytes, the run is not rejected before any request; the initiate request
    is sent and, with a client that accepts every request, the run even
    succeeds. *)
Lemma invalid_sizes_not_rejected_up_front :
  Options.object_size (sample_options 0 None) ≤ 0
  ∧ ¬ rejected_before_any_request
        (copyObjectMultipart accepting_client id [] (sample_options 0 None))
  ∧ outcome (copyObjectMultipart accepting_client id [] (sample_options 0 None))
    = Fulfilled sample_completed
  ∧ Options.copy_part_size_bytes (sample_options 3000 (Some 1000)) = Some 1000
  ∧ 1000 < COPY_PART_SIZE_MINIMUM_BYTES
  ∧ ¬ rejected_before_any_request
        (copyObjectMultipart accepting_client id [0; 1; 2]%nat
           (sample_options 3000 (Some 1000)))
  ∧ outcome
      (copyObjectMultipart accepting_client id [0; 1; 2]%nat
         (sample_options 3000 (Some 1000)))
    = Fulfilled sample_completed.
Proof.
  split; [done|]. split; [intros [Hsent _]; discriminate Hsent|].
  split; [reflexivity|]. split; [reflexivity|]. split; [done|].
  split; [intros [Hsent _]; discriminate Hsent|].
  vm_compute. reflexivity.
Qed.

(** C3, amended: when object_size <= 0 or the part size given is below the
    5,242,880-byte minimum, no InvalidInput error is raised and nothing is
    checked before the network is used: the initiate request is the first
    thing the run does, as for any other input, and a rejection of that
    request is what the caller receives. *)
Theorem invalid_sizes_still_initiate client encodeURIComponent completion
    options :
  Options.object_size options ≤ 0
  ∨ (∃ part_size,
       Options.copy_part_size_bytes options = Some part_size
       ∧ part_size < COPY_PART_SIZE_MINIMUM_BYTES) →
  (∃ rest,
     sent (copyObjectMultipart client encodeURIComponent completion options)
     = CreateMultipartUploadCommand (initiate_request options) :: rest)
  ∧ ¬ rejected_before_any_request
        (copyObjectMultipart client encodeURIComponent completion options)
  ∧ ∀ reason,
      createMultipartUpload client (initiate_request options) = Rejected reason →
      copyObjectMultipart client encodeURIComponent completion options
      = (Rejected reason, [CreateMultipartUploadCommand (initiate_request options)]).
Proof.
  intros _. rewrite copyObjectMultipart_spec.
  destruct (createMultipartUpload client (initiate_request options))
    as [| response | reason]; cbn [sent outcome fst snd].
  - split; [eauto|]. split; [by intros [? _]|]. discriminate.
  - split; [eauto|]. split; [by intros [? _]|]. discriminate.
  - split; [eauto|]. split; [by intros [? _]|]. by intros ? [= <-].
Qed.

Lemma invalid_sizes_still_initiate_witness :
  ∃ rest,
    sent (copyObjectMultipart accepting_client id [] (sample_options (-5) None))
    = CreateMultipartUploadCommand (initiate_request (sample_options (-5) None))
      :: rest.
Proof.
  apply (invalid_sizes_still_initiate accepting_client id []
           (sample_options (-5) None)).
  left. vm_compute. discriminate.
Defined.

(** C9, as stated, fails: no reading of the returned error gives back the
    failure of the part copy.  Two runs that differ only in the exception
    that rejects the copy of part 2 return the same error. *)
Lemma part_copy_failure_not_preserved : ¬ part_copy_failure_preserved.
Proof.
  intros [context_of Hcontext].
  pose proof (Hcontext (client_failing_part_2 "AccessDenied") id [0; 1; 2]%nat
                (sample_options 120000000 None)
                {| CreateMultipartUpload.UploadId := Some "upload-1" |}
                (ServiceException "AccessDenied")
                (Error "multipart copy aborted"
                   (DetailsParams
                      (upload_of (sample_options 120000000 None)
                         (Some "upload-1"))))
                eq_refl eq_refl eq_refl) as Hdenied.
  pose proof (Hcontext (client_failing_part_2 "SlowDown") id [0; 1; 2]%nat
                (sample_options 120000000 None)
                {| CreateMultipartUpload.UploadId := Some "upload-1" |}
                (ServiceException "SlowDown")
                (Error "multipart copy aborted"
                   (DetailsParams
                      (upload_of (sample_options 120000000 None)
                         (Some "upload-1"))))
                eq_refl eq_refl eq_refl) as Hslow.
  rewrite Hdenied in Hslow. discriminate Hslow.
Qed.

(** C9, amended: when a part copy fails and the abort path runs, the error
    returned to the caller is the outcome of the abort procedure, fixed by
    the destination, the upload id and the answers to the abort and list-parts
    requests; the failure of the part copy is not kept on it: two runs of the
    same request that agree on those answers return the same outcome whatever
    the failures of their part copies are. *)
Theorem part_copy_failure_discarded client client' encodeURIComponent
    completion completion' options response original original' :
  createMultipartUpload client (initiate_request options) = Fulfilled response →
  createMultipartUpload client' (initiate_request options) = Fulfilled response →
  abortMultipartUpload client
    (upload_of options (CreateMultipartUpload.UploadId response))
  = abortMultipartUpload client'
      (upload_of options (CreateMultipartUpload.UploadId response)) →
  listParts client (upload_of options (CreateMultipartUpload.UploadId response))
  = listParts client'
      (upload_of options (CreateMultipartUpload.UploadId response)) →
  Promise_all
    (part_promises client encodeURIComponent options
       (CreateMultipartUpload.UploadId response)) completion
  = Rejected original →
  Promise_all
    (part_promises client' encodeURIComponent options
       (CreateMultipartUpload.UploadId response)) completion'
  = Rejected original' →
  outcome (copyObjectMultipart client encodeURIComponent completion options)
  = outcome (copyObjectMultipart client' encodeURIComponent completion' options)
  ∧ outcome (copyObjectMultipart client encodeURIComponent completion options)
    = outcome
        (abortMultipartCopy client (Options.destination_bucket options)
           (Options.copied_object_name options)
           (CreateMultipartUpload.UploadId response)).
Proof.
  intros Hcreate Hcreate' Habort Hlist Hall Hall'.
  rewrite !copyObjectMultipart_spec, Hcreate, Hcreate'.
  cbn [sent outcome fst snd].
  rewrite (copyObjectMultipart_with_rejected _ _ _ _ _ _ Hall).
  rewrite (copyObjectMultipart_with_rejected _ _ _ _ _ _ Hall').
  cbn [sent outcome fst snd]. split; [|reflexivity].
  unfold abortMultipartCopy, upload_of in *. rewrite Habort, Hlist. reflexivity.
Qed.

Lemma part_copy_failure_discarded_witness :
  outcome (copyObjectMultipart (client_failing_part_2 "AccessDenied") id
             [0; 1; 2]%nat (sample_options 120000000 None))
  = outcome (copyObjectMultipart (client_failing_part_2 "SlowDown") id
               [2; 1; 0]%nat (sample_options 120000000 None))
  ∧ outcome (copyObjectMultipart (client_failing_part_2 "AccessDenied") id
               [0; 1; 2]%nat (sample_options 120000000 None))
    = outcome
        (abortMultipartCopy (client_failing_part_2 "AccessDenied")
           "destination-bucket" "copies/big.bin" (Some "upload-1")).
Proof.
  apply (part_copy_failure_discarded (client_failing_part_2 "AccessDenied")
           (client_failing_part_2 "SlowDown") id [0; 1; 2]%nat [2; 1; 0]%nat
           (sample_options 120000000 None)
           {| CreateMultipartUpload.UploadId := Some "upload-1" |}
           (ServiceException "AccessDenied") (ServiceException "SlowDown")).
  - reflexivity.
  - reflexivity.
  - reflexivity.
  - reflexivity.
  - vm_compute. reflexivity.
  - vm_compute. reflexivity.
Defined.

(** * Further properties of the module *)

(** ** The plan in closed form *)

Lemma partitions_loop_closed {P} (mk : Z → Z → P) fuel index n c r acc :
  (fuel ≠ 0%nat → index + Z.of_nat fuel ≤ n) →
  partitions_loop mk fuel index n c r acc
  = (acc ++ ((λ k, loop_partition mk n c r (index + Z.of_nat k)) <$> seq 0 fuel),
     index + Z.of_nat fuel).
Proof.
  revert index acc. induction fuel as [|fuel IH]; intros index acc Hfuel.
  - simpl. rewrite app_nil_r. f_equal. lia.
  - specialize (Hfuel ltac:(done)).
    cbn [partitions_loop]. destruct (Z.ltb_spec index n); [|lia].
    rewrite IH by lia. f_equal; [|lia]. rewrite <- app_assoc. f_equal.
    cbn [seq fmap list_fmap app]. f_equal.
    + unfold loop_partition. by rewrite Z.add_0_r.
    + rewrite <- fmap_S_seq, <- list_fmap_compose. apply list_fmap_ext.
      intros i k _. simpl. f_equal. lia.
Qed.

Lemma calculatePartitions_closed {P} (mk : Z → Z → P) object_size part_size :
  calculatePartitions mk object_size part_size
  = ((λ k,
        loop_partition mk
          (object_size / number_or part_size DEFAULT_COPY_PART_SIZE_BYTES)
          (number_or part_size DEFAULT_COPY_PART_SIZE_BYTES)
          (Z.rem object_size (number_or part_size DEFAULT_COPY_PART_SIZE_BYTES))
          (Z.of_nat k))
       <$> seq 0
             (Z.to_nat
                (object_size / number_or part_size DEFAULT_COPY_PART_SIZE_BYTES)))
    ++ (if COPY_PART_SIZE_MINIMUM_BYTES
           <=? Z.rem object_size
                 (number_or part_size DEFAULT_COPY_PART_SIZE_BYTES)
        then
          [mk (Z.max 0
                 (object_size / number_or part_size DEFAULT_COPY_PART_SIZE_BYTES)
               * number_or part_size DEFAULT_COPY_PART_SIZE_BYTES)
              (Z.max 0
                 (object_size / number_or part_size DEFAULT_COPY_PART_SIZE_BYTES)
               * number_or part_size DEFAULT_COPY_PART_SIZE_BYTES
               + Z.rem object_size
                   (number_or part_size DEFAULT_COPY_PART_SIZE_BYTES) - 1)]
        else []).
Proof.
  unfold calculatePartitions.
  set (c := number_or part_size DEFAULT_COPY_PART_SIZE_BYTES).
  set (n := object_size / c). set (r := Z.rem object_size c).
  rewrite partitions_loop_closed by lia. cbn [app].
  replace (0 + Z.of_nat (Z.to_nat n)) with (Z.max 0 n) by lia.
  destruct (COPY_PART_SIZE_MINIMUM_BYTES <=? r); [|by rewrite app_nil_r].
  f_equal.
Qed.

(** Any positive part size: an object of at least one part, or of at least the
    minimum, is tiled by its plan. *)
Lemma partitionBounds_tiles_positive object_size part_size :
  0 < number_or part_size DEFAULT_COPY_PART_SIZE_BYTES →
  number_or part_size DEFAULT_COPY_PART_SIZE_BYTES ≤ object_size
  ∨ COPY_PART_SIZE_MINIMUM_BYTES ≤ object_size →
  partitionBounds object_size part_size ≠ []
  ∧ tiles 0 object_size (partitionBounds object_size part_size).
Proof.
  intros Hc Hsize. unfold partitionBounds, calculatePartitions.
  set (c := number_or part_size DEFAULT_COPY_PART_SIZE_BYTES) in *.
  assert (0 < COPY_PART_SIZE_MINIMUM_BYTES) as Hmin by done.
  rewrite Z.rem_mod_nonneg by lia.
  pose proof (Z.div_mod object_size c ltac:(lia)) as Hdm.
  pose proof (Z.mod_pos_bound object_size c Hc) as Hr.
  pose proof (Z.div_pos object_size c ltac:(lia) Hc) as Hn.
  set (n := object_size / c) in *. set (r := object_size `mod` c) in *.
  destruct (partitions_loop_tiles (Z.to_nat n) 0 n c r [] 0)
    as [Hidx Htiles]; [lia | lia | lia | lia | simpl; lia |].
  destruct (partitions_loop pair (Z.to_nat n) 0 n c r []) as [parts index].
  simpl in Hidx, Htiles. subst index.
  destruct (Z.leb_spec COPY_PART_SIZE_MINIMUM_BYTES r) as [Hbig | Hless].
  - destruct (Z.ltb_spec r COPY_PART_SIZE_MINIMUM_BYTES); [lia|].
    rewrite andb_false_r in Htiles. split.
    + intros Hnil. by apply app_eq_nil in Hnil as [_ ?].
    + replace object_size with (n * c + r - 1 + 1) at 1 by lia.
      apply tiles_snoc; [done | lia].
  - destruct (Z.ltb_spec r COPY_PART_SIZE_MINIMUM_BYTES); [|lia].
    assert (0 < n) by nia.
    destruct (Z.ltb_spec 0 n); [|lia]. simpl in Htiles.
    replace (n * c + r) with object_size in Htiles by lia. split; [|done].
    intros ->. simpl in Htiles. lia.
Qed.



(** X2: for a positive object size and a positive part size, the planner
    returns the empty array exactly when the object is smaller than both the
    part size and the 5,242,880-byte minimum. *)
Theorem plan_empty_iff object_size copy_part_size_bytes :
  0 < object_size →
  0 < number_or copy_part_size_bytes DEFAULT_COPY_PART_SIZE_BYTES →
  calculatePartitionsRangeArray object_size copy_part_size_bytes = []
  ↔ object_size < number_or copy_part_size_bytes DEFAULT_COPY_PART_SIZE_BYTES
    ∧ object_size < COPY_PART_SIZE_MINIMUM_BYTES.
Proof.
  intros Hsize Hpart. split.
  - intros Hempty.
    destruct (decide
                (object_size
                   < number_or copy_part_size_bytes DEFAULT_COPY_PART_SIZE_BYTES
                 ∧ object_size < COPY_PART_SIZE_MINIMUM_BYTES))
      as [? | Hlarge]; [done|].
    destruct (partitionBounds_tiles_positive object_size copy_part_size_bytes)
      as [Hne _]; [done | lia |].
    unfold calculatePartitionsRangeArray in Hempty.
    rewrite calculatePartitions_fmap in Hempty.
    by apply fmap_nil_inv in Hempty.
  - intros [Hpart_size Hmin]. by apply calculatePartitions_small.
Qed.

Lemma plan_empty_iff_witness :
  calculatePartitionsRangeArray 5242879 None = []
  ↔ 5242879 < number_or None DEFAULT_COPY_PART_SIZE_BYTES
    ∧ 5242879 < COPY_PART_SIZE_MINIMUM_BYTES.
Proof.
  apply (plan_empty_iff 5242879 None).
  - vm_compute. reflexivity.
  - vm_compute. reflexivity.
Defined.



(** X4: with a part size of at least the 5,242,880-byte minimum, for every
    object size, both safe integers (of magnitude at most 2^53 - 1), every
    planned range holds at least the minimum number of bytes and fewer than
    part size + minimum bytes. *)
Theorem plan_part_sizes object_size copy_part_size_bytes :
  isSafeInteger object_size →
  COPY_PART_SIZE_MINIMUM_BYTES
    ≤ number_or copy_part_size_bytes DEFAULT_COPY_PART_SIZE_BYTES
    ≤ MAX_SAFE_INTEGER →
  Forall
    (λ range,
       COPY_PART_SIZE_MINIMUM_BYTES ≤ range.2 - range.1 + 1
       < number_or copy_part_size_bytes DEFAULT_COPY_PART_SIZE_BYTES
         + COPY_PART_SIZE_MINIMUM_BYTES)
    (partitionBounds object_size copy_part_size_bytes).
Proof.
  intros _ [Hpart _]. unfold partitionBounds. rewrite calculatePartitions_closed.
  set (c := number_or copy_part_size_bytes DEFAULT_COPY_PART_SIZE_BYTES) in *.
  assert (0 < COPY_PART_SIZE_MINIMUM_BYTES) as Hmin by done.
  apply Forall_app. split.
  - apply Forall_fmap, Forall_forall. intros k Hk.
    apply elem_of_seq in Hk.
    assert (1 ≤ object_size / c) as Hn by lia.
    assert (0 ≤ object_size).
    { destruct (decide (0 ≤ object_size)); [done|].
      assert (object_size / c < 0) by (apply Z.div_lt_upper_bound; lia). lia. }
    rewrite Z.rem_mod_nonneg by lia.
    pose proof (Z.mod_pos_bound object_size c ltac:(lia)).
    unfold loop_partition. simpl.
    destruct (Z.eqb_spec (Z.of_nat k + 1) (object_size / c)); simpl;
      [destruct (Z.ltb_spec (object_size `mod` c) COPY_PART_SIZE_MINIMUM_BYTES)|];
      simpl; lia.
  - destruct (Z.leb_spec COPY_PART_SIZE_MINIMUM_BYTES (Z.rem object_size c))
      as [Hbig|]; [|constructor].
    apply Forall_singleton. simpl.
    assert (0 ≤ object_size).
    { destruct (decide (0 ≤ object_size)); [done|].
      pose proof (Z.rem_nonpos object_size c). lia. }
    rewrite Z.rem_mod_nonneg in * by lia.
    pose proof (Z.mod_pos_bound object_size c ltac:(lia)). lia.
Qed.

Lemma plan_part_sizes_witness :
  Forall
    (λ range,
       COPY_PART_SIZE_MINIMUM_BYTES ≤ range.2 - range.1 + 1
       < number_or (Some 50000000) DEFAULT_COPY_PART_SIZE_BYTES
         + COPY_PART_SIZE_MINIMUM_BYTES)
    (partitionBounds 100000004 (Some 50000000)).
Proof.
  apply (plan_part_sizes 100000004 (Some 50000000)).
  - split; vm_compute; discriminate.
  - split; vm_compute; discriminate.
Defined.

(** X5: for every object size and every positive part size that are safe
    integers (of magnitude at most 2^53 - 1), the range at position i of the
    plan starts at byte i * part_size, and every range but the last ends at
    byte (i + 1) * part_size - 1: only the last range can differ from the
    part size. *)
Theorem plan_full_parts object_size copy_part_size_bytes i first last :
  isSafeInteger object_size →
  0 < number_or copy_part_size_bytes DEFAULT_COPY_PART_SIZE_BYTES
    ≤ MAX_SAFE_INTEGER →
  partitionBounds object_size copy_part_size_bytes !! i = Some (first, last) →
  first
  = Z.of_nat i * number_or copy_part_size_bytes DEFAULT_COPY_PART_SIZE_BYTES
  ∧ ((S i < length (partitionBounds object_size copy_part_size_bytes))%nat →
     last
     = (Z.of_nat i + 1)
       * number_or copy_part_size_bytes DEFAULT_COPY_PART_SIZE_BYTES - 1).
Proof.
  intros _ _.
  unfold partitionBounds. rewrite calculatePartitions_closed.
  set (c := number_or copy_part_size_bytes DEFAULT_COPY_PART_SIZE_BYTES).
  set (n := object_size / c). set (r := Z.rem object_size c).
  rewrite length_app, length_fmap, length_seq. intros Hi.
  destruct (decide (i < Z.to_nat n)%nat) as [Hloop | Hlast].
  - rewrite lookup_app_l in Hi by (by rewrite length_fmap, length_seq).
    rewrite list_lookup_fmap, lookup_seq_lt in Hi by done.
    simpl in Hi. unfold loop_partition in Hi. simpl in Hi.
    destruct (Z.eqb_spec (Z.of_nat i + 1) n) as [Hend|]; simpl in Hi.
    + destruct (Z.ltb_spec r COPY_PART_SIZE_MINIMUM_BYTES);
        injection Hi as <- <-; (split; [done|]).
      * destruct (Z.leb_spec COPY_PART_SIZE_MINIMUM_BYTES r); [lia|].
        simpl. lia.
      * done.
    + by injection Hi as <- <-.
  - rewrite lookup_app_r in Hi by (rewrite length_fmap, length_seq; lia).
    rewrite length_fmap, length_seq in Hi.
    destruct (COPY_PART_SIZE_MINIMUM_BYTES <=? r); [|by rewrite lookup_nil in Hi].
    destruct (i - Z.to_nat n)%nat as [|later] eqn:Hoffset; [|done].
    injection Hi as <- <-. simpl. split; [|lia].
    f_equal. lia.
Qed.

Lemma plan_full_parts_witness :
  50000000 = Z.of_nat 1 * number_or None DEFAULT_COPY_PART_SIZE_BYTES
  ∧ ((2 < length (partitionBounds 120000000 None))%nat →
     99999999 = (Z.of_nat 1 + 1) * number_or None DEFAULT_COPY_PART_SIZE_BYTES - 1).
Proof.
  apply (plan_full_parts 120000000 None 1 50000000 99999999).
  - split; vm_compute; discriminate.
  - split; vm_compute; [reflexivity | discriminate].
  - vm_compute. reflexivity.
Defined.

(** ** The completion manifest, whatever the responses are *)

Lemma copy_output_of_result (copy_part : UploadPartCopy.Output) result :
  UploadPartCopy.CopyPartResult copy_part = Some result →
  copy_part = copy_output (UploadPartCopy.ETag result).
Proof. destruct copy_part, result. simpl. by intros ->. Qed.

(** Responses that all carry a copy result are [copy_output]s. *)
Lemma copy_outputs_of_results (results : list UploadPartCopy.Output) :
  Forall (λ copy_part, is_Some (UploadPartCopy.CopyPartResult copy_part))
    results →
  ∃ etags, results = copy_output <$> etags.
Proof.
  induction 1 as [|copy_part results [result Hresult] _ [etags ->]].
  - by exists [].
  - exists (UploadPartCopy.ETag result :: etags). simpl.
    by rewrite <- (copy_output_of_result _ _ Hresult).
Qed.

Lemma prepareResults_forEach_throws index results resultArray :
  Exists (λ copy_part, UploadPartCopy.CopyPartResult copy_part = None) results →
  prepareResults_forEach index results resultArray
  = inl (TypeError "Cannot read properties of undefined (reading 'ETag')").
Proof.
  intros Hmissing. revert index resultArray.
  induction results as [|copy_part results IH]; intros index resultArray.
  - inversion Hmissing.
  - simpl. destruct (UploadPartCopy.CopyPartResult copy_part) eqn:Hresult;
      [|reflexivity].
    apply IH. inversion Hmissing; [congruence | done].
Qed.

(** X6: when every response carries a CopyPartResult,
    prepareResultsForCopyCompletion returns one entry per response, numbered
    1..N in the order of the array, the entry at each position holding the
    ETag of the response at that position. *)
Theorem prepareResultsForCopyCompletion_returns results :
  Forall (λ copy_part, is_Some (UploadPartCopy.CopyPartResult copy_part))
    results →
  ∃ manifest,
    prepareResultsForCopyCompletion results = inr manifest
    ∧ length manifest = length results
    ∧ CompleteMultipartUpload.PartNumber <$> manifest = seq 1 (length results)
    ∧ ∀ index copy_part,
        results !! index = Some copy_part →
        ∃ result,
          UploadPartCopy.CopyPartResult copy_part = Some result
          ∧ manifest !! index
            = Some {| CompleteMultipartUpload.ETag := UploadPartCopy.ETag result;
                      CompleteMultipartUpload.PartNumber := (index + 1)%nat |}.
Proof.
  intros Hall. destruct (copy_outputs_of_results _ Hall) as [etags ->].
  exists (ordered_manifest etags).
  split; [apply prepareResultsForCopyCompletion_spec|].
  split; [unfold ordered_manifest; by rewrite length_imap, length_fmap|].
  split; [by rewrite ordered_manifest_numbers, length_fmap|].
  intros index copy_part Hindex. rewrite list_lookup_fmap in Hindex.
  destruct (etags !! index) as [etag|] eqn:Hetag; [|discriminate].
  injection Hindex as <-. eexists. split; [reflexivity|].
  unfold ordered_manifest. by rewrite list_lookup_imap, Hetag.
Qed.

Lemma prepareResultsForCopyCompletion_returns_witness :
  ∃ manifest,
    prepareResultsForCopyCompletion [sample_copied 1; sample_copied 2]
    = inr manifest
    ∧ length manifest = length [sample_copied 1; sample_copied 2]
    ∧ CompleteMultipartUpload.PartNumber <$> manifest
      = seq 1 (length [sample_copied 1; sample_copied 2])
    ∧ ∀ index copy_part,
        [sample_copied 1; sample_copied 2] !! index = Some copy_part →
        ∃ result,
          UploadPartCopy.CopyPartResult copy_part = Some result
          ∧ manifest !! index
            = Some {| CompleteMultipartUpload.ETag := UploadPartCopy.ETag result;
                      CompleteMultipartUpload.PartNumber := (index + 1)%nat |}.
Proof.
  apply (prepareResultsForCopyCompletion_returns
           [sample_copied 1; sample_copied 2]).
  repeat constructor; by eexists.
Defined.

(** X7: when some response lacks its CopyPartResult,
    prepareResultsForCopyCompletion throws a TypeError and returns no
    manifest, whatever the other responses are. *)
Theorem prepareResultsForCopyCompletion_throws results :
  Exists (λ copy_part, UploadPartCopy.CopyPartResult copy_part = None) results →
  prepareResultsForCopyCompletion results
  = inl (TypeError "Cannot read properties of undefined (reading 'ETag')").
Proof. apply prepareResults_forEach_throws. Qed.

Lemma prepareResultsForCopyCompletion_throws_witness :
  prepareResultsForCopyCompletion
    [sample_copied 1; {| UploadPartCopy.CopyPartResult := None |}; sample_copied 3]
  = inl (TypeError "Cannot read properties of undefined (reading 'ETag')").
Proof.
  apply (prepareResultsForCopyCompletion_throws
           [sample_copied 1; {| UploadPartCopy.CopyPartResult := None |};
            sample_copied 3]).
  apply Exists_cons_tl, Exists_cons_hd. reflexivity.
Defined.

(** ** Every way a run can go *)

Section All_runs.
Variable client : S3Client.
Variable encodeURIComponent : string → string.
Variable completion : list nat.

Lemma abortMultipartCopy_cases {A} db name uid :
  abortMultipartCopy (A:=A) client db name uid
  = match abortMultipartUpload client (abortMultipartCopy_params db name uid)
    with
    | Pending =>
        (Pending,
         [AbortMultipartUploadCommand (abortMultipartCopy_params db name uid)])
    | Rejected reason =>
        (Rejected reason,
         [AbortMultipartUploadCommand (abortMultipartCopy_params db name uid)])
    | Fulfilled _ =>
        (match listParts client (abortMultipartCopy_params db name uid) with
         | Pending => Pending
         | Rejected reason => Rejected reason
         | Fulfilled parts_list =>
             Rejected
               match ListParts.Parts parts_list with
               | None =>
                   TypeError
                     "Cannot read properties of undefined (reading 'length')"
               | Some [] =>
                   Error "multipart copy aborted"
                     (DetailsParams (abortMultipartCopy_params db name uid))
               | Some (_ :: _) =>
                   Error "Abort procedure passed but copy parts were not removed"
                     (DetailsPartsList parts_list)
               end
         end,
         [AbortMultipartUploadCommand (abortMultipartCopy_params db name uid);
          ListPartsCommand (abortMultipartCopy_params db name uid)])
    end.
Proof.
  unfold abortMultipartCopy.
  destruct (abortMultipartUpload client _) as [| [] | reason]; simpl;
    try reflexivity.
  destruct (listParts client _) as [| parts_list | reason]; simpl;
    try reflexivity.
  destruct (ListParts.Parts parts_list) as [[|part parts]|]; reflexivity.
Qed.

Lemma copyObjectMultipart_with_cases options upload_id :
  copyObjectMultipart_with client encodeURIComponent completion options upload_id
  = let copies :=
      UploadPartCopyCommand
        <$> part_requests encodeURIComponent options upload_id in
    let aborted : IO (Promise CompleteMultipartUpload.Output) :=
      abortMultipartCopy client (Options.destination_bucket options)
        (Options.copied_object_name options) upload_id in
    match
      Promise_all (part_promises client encodeURIComponent options upload_id)
        completion
    with
    | Pending => (Pending, copies)
    | Rejected _ => (outcome aborted, copies ++ sent aborted)
    | Fulfilled copy_results =>
        match prepareResultsForCopyCompletion copy_results with
        | inl _ => (outcome aborted, copies ++ sent aborted)
        | inr manifest =>
            match
              completeMultipartUpload client
                (complete_request options upload_id manifest)
            with
            | Rejected _ =>
                (outcome aborted,
                 copies
                 ++ CompleteMultipartUploadCommand
                      (complete_request options upload_id manifest)
                 :: sent aborted)
            | answer =>
                (answer,
                 copies
                 ++ [CompleteMultipartUploadCommand
                       (complete_request options upload_id manifest)])
            end
        end
    end.
Proof.
  rewrite copyObjectMultipart_with_spec. unfold io_bind at 1. cbn zeta.
  destruct (Promise_all _ completion) as [| copy_results | reason];
    unfold io_bind at 1; simpl.
  - by rewrite app_nil_r.
  - destruct (prepareResultsForCopyCompletion copy_results) as [thrown | manifest];
      simpl.
    + by destruct (abortMultipartCopy _ _ _ _).
    + unfold completeMultipartCopy, complete_request.
      destruct (completeMultipartUpload client _); simpl; try reflexivity.
      by destruct (abortMultipartCopy _ _ _ _).
  - by destruct (abortMultipartCopy _ _ _ _).
Qed.

(** A promise that never settles, with no rejection among those that do,
    keeps the joined promise pending. *)
Lemma Promise_all_settle_pending {A} (promises : list (Promise A)) order values i :
  values !! i = Some None →
  (i ∉ order ∨ promises !! i = Some Pending) →
  (∀ j reason, j ∈ order → promises !! j ≠ Some (Rejected reason)) →
  Promise_all_settle promises order values = Pending.
Proof.
  revert values. induction order as [|index later IH];
    intros values Hvalue Hnever Hnone.
  - simpl. destruct (mapM id values) as [all_values|] eqn:Hall; [|done].
    apply mapM_Some_1 in Hall.
    destruct (Forall2_lookup_l _ _ _ _ _ Hall Hvalue) as (? & _ & ?). done.
  - simpl.
    assert (i ∉ later ∨ promises !! i = Some Pending) as Hlater.
    { destruct Hnever as [Hnot | ?]; [left | by right].
      intros ?. apply Hnot. by right. }
    assert (∀ j reason, j ∈ later → promises !! j ≠ Some (Rejected reason))
      as Hnone_later by (intros j reason ?; apply Hnone; by right).
    destruct (promises !! index) as [[| value | reason]|] eqn:Hindex.
    + by apply IH.
    + apply IH; [|done..]. rewrite list_lookup_insert_ne; [done|].
      intros <-. destruct Hnever as [Hnot | Hpending]; [|congruence].
      apply Hnot. by left.
    + exfalso. eapply (Hnone index reason); [by left | done].
    + by apply IH.
Qed.
End All_runs.

(** ** Runs in which the encoding of the source key can throw *)


Section Throwing_runs.
Variable client : S3Client.
Variable encodeURIComponent : string → option string.
Variable completion : list nat.

Lemma copyParts_forEach_throwing_returns sb db ok name uid encoded index ranges
    started :
  encodeURIComponent (sb +:+ "/" +:+ ok) = Some encoded →
  copyParts_forEach_throwing client encodeURIComponent sb db ok name uid index
    ranges started
  = (inr
       (copyParts_forEach client (λ _, encoded) sb db ok name uid index ranges
          started).1,
     (copyParts_forEach client (λ _, encoded) sb db ok name uid index ranges
        started).2).
Proof.
  intros Hencoded. revert index started.
  induction ranges as [|range ranges IH]; intros index started; simpl.
  - reflexivity.
  - unfold copyPart_throwing. rewrite Hencoded. unfold io_bind at 1.
    rewrite IH. unfold io_bind, copyPart, copyPart_params.
    by destruct (copyParts_forEach _ _ _ _ _ _ _ _ _ _).
Qed.

Lemma copyParts_forEach_throwing_throws sb db ok name uid index ranges started :
  encodeURIComponent (sb +:+ "/" +:+ ok) = None →
  ranges ≠ [] →
  copyParts_forEach_throwing client encodeURIComponent sb db ok name uid index
    ranges started
  = (inl URI_malformed, []).
Proof.
  intros Hthrows Hranges. destruct ranges as [|range ranges]; [done|].
  simpl. unfold copyPart_throwing. by rewrite Hthrows.
Qed.

(** Where the encoding returns, the run is that of the functions that take
    the encoder as a function. *)
Lemma copyObjectMultipart_with_throwing_returns options upload_id encoded :
  encodeURIComponent (source_key options) = Some encoded →
  copyObjectMultipart_with_throwing client encodeURIComponent completion options
    upload_id
  = copyObjectMultipart_with client (λ _, encoded) completion options upload_id.
Proof.
  intros Hencoded.
  unfold copyObjectMultipart_with_throwing, copyObjectMultipart_with.
  rewrite (copyParts_forEach_throwing_returns _ _ _ _ _ _ _ _ _ Hencoded).
  by destruct (copyParts_forEach _ _ _ _ _ _ _ _ _ _).
Qed.


Lemma copyObjectMultipart_with_throwing_throws options upload_id :
  encodeURIComponent (source_key options) = None →
  ranges_of options ≠ [] →
  copyObjectMultipart_with_throwing client encodeURIComponent completion options
    upload_id
  = (Rejected URI_malformed, []).
Proof.
  intros Hthrows Hranges. unfold copyObjectMultipart_with_throwing.
  by rewrite (copyParts_forEach_throwing_throws _ _ _ _ _ _ _ _ Hthrows Hranges).
Qed.

Lemma copyObjectMultipart_throwing_spec options :
  copyObjectMultipart_throwing client encodeURIComponent completion options
  = match createMultipartUpload client (initiate_request options) with
    | Fulfilled response =>
        let rest :=
          copyObjectMultipart_with_throwing client encodeURIComponent completion
            options (CreateMultipartUpload.UploadId response) in
        (outcome rest,
         CreateMultipartUploadCommand (initiate_request options) :: sent rest)
    | Rejected reason =>
        (Rejected reason, [CreateMultipartUploadCommand (initiate_request options)])
    | Pending =>
        (Pending, [CreateMultipartUploadCommand (initiate_request options)])
    end.
Proof.
  unfold copyObjectMultipart_throwing, initiateMultipartCopy, initiate_request.
  destruct (createMultipartUpload client _) as [| response | reason]; simpl;
    try reflexivity.
  destruct (copyObjectMultipart_with_throwing _ _ _ _ _) as [result requests].
  reflexivity.
Qed.
End Throwing_runs.

(** What follows the copy requests, for an encoder that returns. *)
Lemma copyObjectMultipart_with_shape client encoder completion options upload_id :
  ∃ completes aborts,
    sent (copyObjectMultipart_with client encoder completion options upload_id)
    = (UploadPartCopyCommand <$> part_requests encoder options upload_id)
      ++ completes ++ aborts
    ∧ (completes = []
       ∨ ∃ params, completes = [CompleteMultipartUploadCommand params])
    ∧ (aborts = []
       ∨ aborts = [AbortMultipartUploadCommand (upload_of options upload_id)]
       ∨ aborts
         = [AbortMultipartUploadCommand (upload_of options upload_id);
            ListPartsCommand (upload_of options upload_id)]).
Proof.
  rewrite copyObjectMultipart_with_cases. cbn zeta.
  assert (∀ A,
            sent (abortMultipartCopy (A:=A) client
                    (Options.destination_bucket options)
                    (Options.copied_object_name options) upload_id)
            = [AbortMultipartUploadCommand (upload_of options upload_id)]
            ∨ sent (abortMultipartCopy (A:=A) client
                      (Options.destination_bucket options)
                      (Options.copied_object_name options) upload_id)
              = [AbortMultipartUploadCommand (upload_of options upload_id);
                 ListPartsCommand (upload_of options upload_id)])
    as Habort.
  { intros A. rewrite abortMultipartCopy_cases.
    destruct (abortMultipartUpload client _); simpl; auto. }
  destruct (Promise_all _ completion) as [| copy_results | reason].
  - exists [], []. rewrite !app_nil_r. auto.
  - destruct (prepareResultsForCopyCompletion copy_results) as [thrown | manifest].
    + eexists [], _. cbn [sent outcome fst snd app].
      split; [reflexivity|]. split; [by left|]. right. apply Habort.
    + destruct (completeMultipartUpload client _);
        cbn [sent outcome fst snd].
      * eexists [_], []. split; [reflexivity|]. split; [right; eauto | by left].
      * eexists [_], []. split; [reflexivity|]. split; [right; eauto | by left].
      * eexists [_], _. split; [reflexivity|]. split; [eauto|]. right.
        apply Habort.
  - eexists [], _. cbn [sent outcome fst snd app].
    split; [reflexivity|]. split; [by left|]. right. apply Habort.
Qed.



(** The copy request of a range, for an encoder that returns. *)
Lemma copyObjectMultipart_with_copy_request client encoder completion options
    upload_id index first last :
  partitionBounds (Options.object_size options)
    (Options.copy_part_size_bytes options) !! index
  = Some (first, last) →
  sent (copyObjectMultipart_with client encoder completion options upload_id)
    !! index
  = Some
      (UploadPartCopyCommand
         (part_request encoder options upload_id index
            (partition_string first last))).
Proof.
  intros Hrange.
  destruct (copyObjectMultipart_with_shape client encoder completion options
              upload_id) as (completes & aborts & -> & _).
  rewrite lookup_app_l.
  - unfold part_requests, ranges_of, calculatePartitionsRangeArray.
    rewrite calculatePartitions_fmap.
    fold (partitionBounds (Options.object_size options)
            (Options.copy_part_size_bytes options)).
    by rewrite list_lookup_fmap, list_lookup_imap, list_lookup_fmap, Hrange.
  - unfold part_requests, ranges_of, calculatePartitionsRangeArray.
    rewrite calculatePartitions_fmap, length_fmap, length_imap, length_fmap.
    by eapply lookup_lt_Some.
Qed.

(** X9: after a fulfilled initiate request, when encoding the source key
    returns and the object size and the part size are safe integers (of
    magnitude at most 2^53 - 1, the part size positive), the request sent at
    position index + 1 of a run is the copy of the range planned at position
    index: it carries part number index + 1, the byte range
    "bytes=first-last" of that range in decimal digits, the encoded
    "source_bucket/object_key" as source, the destination bucket and key, and
    the upload id of the initiate response. *)
Theorem copy_request_of_range client encodeURIComponent completion options
    response encoded index first last :
  createMultipartUpload client (initiate_request options) = Fulfilled response →
  encodeURIComponent
    (Options.source_bucket options +:+ "/" +:+ Options.object_key options)
  = Some encoded →
  isSafeInteger (Options.object_size options) →
  0 < number_or (Options.copy_part_size_bytes options)
        DEFAULT_COPY_PART_SIZE_BYTES
    ≤ MAX_SAFE_INTEGER →
  partitionBounds (Options.object_size options)
    (Options.copy_part_size_bytes options) !! index
  = Some (first, last) →
  sent (copyObjectMultipart_throwing client encodeURIComponent completion
          options) !! S index
  = Some
      (UploadPartCopyCommand
         {| UploadPartCopy.Bucket := Options.destination_bucket options;
            UploadPartCopy.CopySource := encoded;
            UploadPartCopy.CopySourceRange :=
              "bytes=" +:+ pretty first +:+ "-" +:+ pretty last;
            UploadPartCopy.Key := Options.copied_object_name options;
            UploadPartCopy.PartNumber := (index + 1)%nat;
            UploadPartCopy.UploadId := CreateMultipartUpload.UploadId response |}).
Proof.
  intros Hcreate Hencoded _ _ Hrange.
  rewrite copyObjectMultipart_throwing_spec, Hcreate.
  cbn [sent outcome fst snd lookup list_lookup].
  rewrite (copyObjectMultipart_with_throwing_returns _ _ _ _ _ encoded)
    by exact Hencoded.
  exact (copyObjectMultipart_with_copy_request client (λ _, encoded) completion
           options (CreateMultipartUpload.UploadId response) index first last
           Hrange).
Qed.

Lemma copy_request_of_range_witness :
  sent (copyObjectMultipart_throwing accepting_client sample_encoder
          [2; 1; 0]%nat (sample_options 120000000 None)) !! 3%nat
  = Some
      (UploadPartCopyCommand
         {| UploadPartCopy.Bucket :=
              Options.destination_bucket (sample_options 120000000 None);
            UploadPartCopy.CopySource := "source-bucket%2Fvideos%2Fbig.bin";
            UploadPartCopy.CopySourceRange :=
              "bytes=" +:+ pretty 100000000 +:+ "-" +:+ pretty 119999999;
            UploadPartCopy.Key :=
              Options.copied_object_name (sample_options 120000000 None);
            UploadPartCopy.PartNumber := (2 + 1)%nat;
            UploadPartCopy.UploadId := Some "upload-1" |}).
Proof.
  apply (copy_request_of_range accepting_client sample_encoder [2; 1; 0]%nat
           (sample_options 120000000 None)
           {| CreateMultipartUpload.UploadId := Some "upload-1" |}
           "source-bucket%2Fvideos%2Fbig.bin" 2%nat 100000000 119999999).
  - reflexivity.
  - reflexivity.
  - split; vm_compute; discriminate.
  - split; vm_compute; [reflexivity | discriminate].
  - vm_compute. reflexivity.
Defined.

(** X10: when the initiate request is rejected, the caller receives that
    rejection unchanged, and the initiate request is the only request of the
    run: nothing is planned, copied, completed or aborted. *)
Theorem initiate_failure_reported client encodeURIComponent completion options
    reason :
  createMultipartUpload client (initiate_request options) = Rejected reason →
  copyObjectMultipart client encodeURIComponent completion options
  = (Rejected reason, [CreateMultipartUploadCommand (initiate_request options)]).
Proof. intros Hcreate. by rewrite copyObjectMultipart_spec, Hcreate. Qed.

Lemma initiate_failure_reported_witness :
  copyObjectMultipart client_rejecting_initiate id [0; 1; 2]%nat
    (sample_options 120000000 None)
  = (Rejected (ServiceException "AccessDenied"),
     [CreateMultipartUploadCommand
        (initiate_request (sample_options 120000000 None))]).
Proof.
  apply (initiate_failure_reported client_rejecting_initiate id [0; 1; 2]%nat
           (sample_options 120000000 None) (ServiceException "AccessDenied")).
  reflexivity.
Defined.

(** X11: when every part copy succeeds and the complete request is
    fulfilled, the run is fulfilled with the answer of the complete request
    itself, and its requests are exactly the initiate request, the copy
    requests and the complete request: no abort, no list-parts. *)
Theorem successful_copy client encodeURIComponent completion options response
    etags answer :
  createMultipartUpload client (initiate_request options) = Fulfilled response →
  part_promises client encodeURIComponent options
    (CreateMultipartUpload.UploadId response)
    = Fulfilled <$> (copy_output <$> etags) →
  completion ≡ₚ seq 0 (length etags) →
  completeMultipartUpload client
    (complete_request options (CreateMultipartUpload.UploadId response)
       (ordered_manifest etags))
    = Fulfilled answer →
  copyObjectMultipart client encodeURIComponent completion options
  = (Fulfilled answer,
     CreateMultipartUploadCommand (initiate_request options)
     :: (UploadPartCopyCommand
           <$> part_requests encodeURIComponent options
                 (CreateMultipartUpload.UploadId response))
     ++ [CompleteMultipartUploadCommand
           (complete_request options (CreateMultipartUpload.UploadId response)
              (ordered_manifest etags))]).
Proof.
  intros Hcreate Hparts Hperm Hcomplete.
  rewrite copyObjectMultipart_spec, Hcreate.
  rewrite copyObjectMultipart_with_cases. cbn zeta.
  rewrite Hparts, Promise_all_fulfilled by (by rewrite length_fmap).
  by rewrite prepareResultsForCopyCompletion_spec, Hcomplete.
Qed.

Lemma successful_copy_witness :
  copyObjectMultipart accepting_client id [2; 1; 0]%nat
    (sample_options 120000000 None)
  = (Fulfilled sample_completed,
     CreateMultipartUploadCommand
       (initiate_request (sample_options 120000000 None))
     :: (UploadPartCopyCommand
           <$> part_requests id (sample_options 120000000 None)
                 (Some "upload-1"))
     ++ [CompleteMultipartUploadCommand
           (complete_request (sample_options 120000000 None) (Some "upload-1")
              (ordered_manifest [Some "etag-1"; Some "etag-2"; Some "etag-3"]))]).
Proof.
  apply (successful_copy accepting_client id [2; 1; 0]%nat
           (sample_options 120000000 None)
           {| CreateMultipartUpload.UploadId := Some "upload-1" |}
           [Some "etag-1"; Some "etag-2"; Some "etag-3"] sample_completed).
  - reflexivity.
  - vm_compute. reflexivity.
  - simpl. symmetry. apply (Permutation_rev [0; 1; 2]%nat).
  - reflexivity.
Defined.

(** X12: a run is fulfilled only through the complete request: if the caller
    receives a value, the initiate request was fulfilled, the value is the
    answer of the complete request, that request is the last one of the run
    and neither abort nor list-parts was sent. *)
Theorem fulfilled_only_by_complete client encodeURIComponent completion options
    answer :
  outcome (copyObjectMultipart client encodeURIComponent completion options)
  = Fulfilled answer →
  ∃ response manifest,
    createMultipartUpload client (initiate_request options) = Fulfilled response
    ∧ completeMultipartUpload client
        (complete_request options (CreateMultipartUpload.UploadId response)
           manifest)
      = Fulfilled answer
    ∧ sent (copyObjectMultipart client encodeURIComponent completion options)
      = CreateMultipartUploadCommand (initiate_request options)
        :: (UploadPartCopyCommand
              <$> part_requests encodeURIComponent options
                    (CreateMultipartUpload.UploadId response))
        ++ [CompleteMultipartUploadCommand
              (complete_request options
                 (CreateMultipartUpload.UploadId response) manifest)].
Proof.
  rewrite copyObjectMultipart_spec.
  destruct (createMultipartUpload client (initiate_request options))
    as [| response | reason]; [discriminate | | discriminate].
  rewrite copyObjectMultipart_with_cases. cbn zeta.
  pose proof (abortMultipartCopy_not_fulfilled client
                (Options.destination_bucket options)
                (Options.copied_object_name options)
                (CreateMultipartUpload.UploadId response) answer) as Hnever.
  destruct (Promise_all _ completion) as [| copy_results | reason];
    cbn [sent outcome fst snd]; [discriminate | | done].
  destruct (prepareResultsForCopyCompletion copy_results) as [thrown | manifest];
    cbn [sent outcome fst snd]; [done|].
  destruct (completeMultipartUpload client _) as [| value | reason] eqn:Hcomplete;
    cbn [sent outcome fst snd]; [discriminate | | done].
  intros [= ->]. eauto.
Qed.

Lemma fulfilled_only_by_complete_witness :
  ∃ response manifest,
    createMultipartUpload accepting_client
      (initiate_request (sample_options 100000004 None))
    = Fulfilled response
    ∧ completeMultipartUpload accepting_client
        (complete_request (sample_options 100000004 None)
           (CreateMultipartUpload.UploadId response) manifest)
      = Fulfilled sample_completed
    ∧ sent (copyObjectMultipart accepting_client id [1; 0]%nat
              (sample_options 100000004 None))
      = CreateMultipartUploadCommand
          (initiate_request (sample_options 100000004 None))
        :: (UploadPartCopyCommand
              <$> part_requests id (sample_options 100000004 None)
                    (CreateMultipartUpload.UploadId response))
        ++ [CompleteMultipartUploadCommand
              (complete_request (sample_options 100000004 None)
                 (CreateMultipartUpload.UploadId response) manifest)].
Proof.
  apply (fulfilled_only_by_complete accepting_client id [1; 0]%nat
           (sample_options 100000004 None) sample_completed).
  vm_compute. reflexivity.
Defined.




(** X14: when a part copy fails and the abort request itself is rejected, the
    caller receives the rejection of the abort request, and the list-parts
    request is not sent. *)
Theorem abort_failure_propagates client encodeURIComponent completion options
    response index reason abort_reason :
  createMultipartUpload client (initiate_request options) = Fulfilled response →
  part_promises client encodeURIComponent options
    (CreateMultipartUpload.UploadId response) !! index
    = Some (Rejected reason) →
  index ∈ completion →
  abortMultipartUpload client
    (upload_of options (CreateMultipartUpload.UploadId response))
    = Rejected abort_reason →
  copyObjectMultipart client encodeURIComponent completion options
  = (Rejected abort_reason,
     CreateMultipartUploadCommand (initiate_request options)
     :: (UploadPartCopyCommand
           <$> part_requests encodeURIComponent options
                 (CreateMultipartUpload.UploadId response))
     ++ [AbortMultipartUploadCommand
           (upload_of options (CreateMultipartUpload.UploadId response))]).
Proof.
  intros Hcreate Hfailed Hsettles Habort.
  destruct (Promise_all_rejected _ _ _ _ Hsettles Hfailed) as [first Hall].
  rewrite copyObjectMultipart_spec, Hcreate.
  rewrite copyObjectMultipart_with_cases, Hall. cbn zeta.
  rewrite abortMultipartCopy_cases. unfold upload_of in *. by rewrite Habort.
Qed.

Lemma abort_failure_propagates_witness :
  copyObjectMultipart
    (client_failing_cleanup (Rejected (ServiceException "NoSuchUpload"))
       no_parts_left) id [0; 1; 2]%nat (sample_options 120000000 None)
  = (Rejected (ServiceException "NoSuchUpload"),
     CreateMultipartUploadCommand
       (initiate_request (sample_options 120000000 None))
     :: (UploadPartCopyCommand
           <$> part_requests id (sample_options 120000000 None)
                 (Some "upload-1"))
     ++ [AbortMultipartUploadCommand
           (upload_of (sample_options 120000000 None) (Some "upload-1"))]).
Proof.
  apply (abort_failure_propagates
           (client_failing_cleanup (Rejected (ServiceException "NoSuchUpload"))
              no_parts_left) id [0; 1; 2]%nat (sample_options 120000000 None)
           {| CreateMultipartUpload.UploadId := Some "upload-1" |} 1%nat
           (ServiceException "SlowDown")).
  - reflexivity.
  - vm_compute. reflexivity.
  - apply list_elem_of_further, list_elem_of_here.
  - reflexivity.
Defined.

(** X15: when a part copy fails, the abort request is accepted and the
    list-parts request is rejected, the caller receives the rejection of the
    list-parts request. *)
Theorem list_failure_propagates client encodeURIComponent completion options
    response index reason accepted list_reason :
  createMultipartUpload client (initiate_request options) = Fulfilled response →
  part_promises client encodeURIComponent options
    (CreateMultipartUpload.UploadId response) !! index
    = Some (Rejected reason) →
  index ∈ completion →
  abortMultipartUpload client
    (upload_of options (CreateMultipartUpload.UploadId response))
    = Fulfilled accepted →
  listParts client (upload_of options (CreateMultipartUpload.UploadId response))
    = Rejected list_reason →
  copyObjectMultipart client encodeURIComponent completion options
  = (Rejected list_reason,
     CreateMultipartUploadCommand (initiate_request options)
     :: (UploadPartCopyCommand
           <$> part_requests encodeURIComponent options
                 (CreateMultipartUpload.UploadId response))
     ++ [AbortMultipartUploadCommand
           (upload_of options (CreateMultipartUpload.UploadId response));
         ListPartsCommand
           (upload_of options (CreateMultipartUpload.UploadId response))]).
Proof.
  intros Hcreate Hfailed Hsettles Habort Hlist.
  destruct (Promise_all_rejected _ _ _ _ Hsettles Hfailed) as [first Hall].
  rewrite copyObjectMultipart_spec, Hcreate.
  rewrite copyObjectMultipart_with_cases, Hall. cbn zeta.
  rewrite abortMultipartCopy_cases. unfold upload_of in *.
  by rewrite Habort, Hlist.
Qed.

Lemma list_failure_propagates_witness :
  copyObjectMultipart
    (client_failing_cleanup (Fulfilled ())
       (Rejected (ServiceException "NoSuchUpload")))
    id [0; 1; 2]%nat (sample_options 120000000 None)
  = (Rejected (ServiceException "NoSuchUpload"),
     CreateMultipartUploadCommand
       (initiate_request (sample_options 120000000 None))
     :: (UploadPartCopyCommand
           <$> part_requests id (sample_options 120000000 None)
                 (Some "upload-1"))
     ++ [AbortMultipartUploadCommand
           (upload_of (sample_options 120000000 None) (Some "upload-1"));
         ListPartsCommand
           (upload_of (sample_options 120000000 None) (Some "upload-1"))]).
Proof.
  apply (list_failure_propagates
           (client_failing_cleanup (Fulfilled ())
              (Rejected (ServiceException "NoSuchUpload")))
           id [0; 1; 2]%nat (sample_options 120000000 None)
           {| CreateMultipartUpload.UploadId := Some "upload-1" |} 1%nat
           (ServiceException "SlowDown") ()).
  - reflexivity.
  - vm_compute. reflexivity.
  - apply list_elem_of_further, list_elem_of_here.
  - reflexivity.
  - reflexivity.
Defined.

(** X16: when a part copy fails, the abort request is accepted and the
    list-parts answer has no Parts key, the caller receives the TypeError of
    reading its length: neither of the module's two abort errors. *)
Theorem listing_without_parts_throws client encodeURIComponent completion
    options response index reason accepted parts_list :
  createMultipartUpload client (initiate_request options) = Fulfilled response →
  part_promises client encodeURIComponent options
    (CreateMultipartUpload.UploadId response) !! index
    = Some (Rejected reason) →
  index ∈ completion →
  abortMultipartUpload client
    (upload_of options (CreateMultipartUpload.UploadId response))
    = Fulfilled accepted →
  listParts client (upload_of options (CreateMultipartUpload.UploadId response))
    = Fulfilled parts_list →
  ListParts.Parts parts_list = None →
  outcome (copyObjectMultipart client encodeURIComponent completion options)
  = Rejected
      (TypeError "Cannot read properties of undefined (reading 'length')").
Proof.
  intros Hcreate Hfailed Hsettles Habort Hlist Hparts.
  destruct (Promise_all_rejected _ _ _ _ Hsettles Hfailed) as [first Hall].
  rewrite copyObjectMultipart_spec, Hcreate.
  rewrite copyObjectMultipart_with_cases, Hall. cbn zeta.
  rewrite abortMultipartCopy_cases. unfold upload_of in *.
  by rewrite Habort, Hlist, Hparts.
Qed.

Lemma listing_without_parts_throws_witness :
  outcome
    (copyObjectMultipart
       (client_failing_cleanup (Fulfilled ())
          (Fulfilled {| ListParts.Parts := None |}))
       id [0; 1; 2]%nat (sample_options 120000000 None))
  = Rejected
      (TypeError "Cannot read properties of undefined (reading 'length')").
Proof.
  apply (listing_without_parts_throws
           (client_failing_cleanup (Fulfilled ())
              (Fulfilled {| ListParts.Parts := None |}))
           id [0; 1; 2]%nat (sample_options 120000000 None)
           {| CreateMultipartUpload.UploadId := Some "upload-1" |} 1%nat
           (ServiceException "SlowDown") () {| ListParts.Parts := None |}).
  - reflexivity.
  - vm_compute. reflexivity.
  - apply list_elem_of_further, list_elem_of_here.
  - reflexivity.
  - reflexivity.
  - reflexivity.
Defined.

(** X17: when every part copy is fulfilled but one of the answers lacks its
    CopyPartResult, no complete request is sent: the TypeError thrown while
    the manifest is built starts the abort procedure, the requests after the
    copies are the abort request and, once it is accepted, the list-parts
    request, and the run is never fulfilled. *)
Theorem missing_copy_result_aborts client encodeURIComponent completion options
    response results :
  createMultipartUpload client (initiate_request options) = Fulfilled response →
  part_promises client encodeURIComponent options
    (CreateMultipartUpload.UploadId response)
    = Fulfilled <$> results →
  completion ≡ₚ seq 0 (length results) →
  Exists (λ copy_part, UploadPartCopy.CopyPartResult copy_part = None) results →
  sent (copyObjectMultipart client encodeURIComponent completion options)
  = CreateMultipartUploadCommand (initiate_request options)
    :: (UploadPartCopyCommand
          <$> part_requests encodeURIComponent options
                (CreateMultipartUpload.UploadId response))
    ++ AbortMultipartUploadCommand
         (upload_of options (CreateMultipartUpload.UploadId response))
    :: match
         abortMultipartUpload client
           (upload_of options (CreateMultipartUpload.UploadId response))
       with
       | Fulfilled _ =>
           [ListPartsCommand
              (upload_of options (CreateMultipartUpload.UploadId response))]
       | _ => []
       end
  ∧ ∀ value,
      outcome (copyObjectMultipart client encodeURIComponent completion options)
      ≠ Fulfilled value.
Proof.
  intros Hcreate Hparts Hperm Hmissing.
  rewrite copyObjectMultipart_spec, Hcreate.
  rewrite copyObjectMultipart_with_cases. cbn zeta.
  rewrite Hparts, Promise_all_fulfilled by done.
  unfold prepareResultsForCopyCompletion.
  rewrite prepareResults_forEach_throws by done.
  cbn [sent outcome fst snd]. split.
  - by rewrite abortMultipartCopy_sent.
  - intros value. apply abortMultipartCopy_not_fulfilled.
Qed.

Lemma missing_copy_result_aborts_witness :
  sent (copyObjectMultipart client_missing_copy_result id [2; 1; 0]%nat
          (sample_options 120000000 None))
  = CreateMultipartUploadCommand
      (initiate_request (sample_options 120000000 None))
    :: (UploadPartCopyCommand
          <$> part_requests id (sample_options 120000000 None)
                (Some "upload-1"))
    ++ AbortMultipartUploadCommand
         (upload_of (sample_options 120000000 None) (Some "upload-1"))
    :: match
         abortMultipartUpload client_missing_copy_result
           (upload_of (sample_options 120000000 None) (Some "upload-1"))
       with
       | Fulfilled _ =>
           [ListPartsCommand
              (upload_of (sample_options 120000000 None) (Some "upload-1"))]
       | _ => []
       end
  ∧ ∀ value,
      outcome (copyObjectMultipart client_missing_copy_result id [2; 1; 0]%nat
                 (sample_options 120000000 None))
      ≠ Fulfilled value.
Proof.
  apply (missing_copy_result_aborts client_missing_copy_result id [2; 1; 0]%nat
           (sample_options 120000000 None)
           {| CreateMultipartUpload.UploadId := Some "upload-1" |}
           [sample_copied 1; {| UploadPartCopy.CopyPartResult := None |};
            sample_copied 3]).
  - reflexivity.
  - vm_compute. reflexivity.
  - simpl. symmetry. apply (Permutation_rev [0; 1; 2]%nat).
  - apply Exists_cons_tl, Exists_cons_hd. reflexivity.
Defined.

(** X18: when a part copy never settles and none of the part copies that
    settle is rejected, the run stays pending and sends nothing after the
    copy requests: the upload is neither completed nor aborted. *)
Theorem unsettled_part_keeps_pending client encodeURIComponent completion
    options response index :
  createMultipartUpload client (initiate_request options) = Fulfilled response →
  (index < length (ranges_of options))%nat →
  index ∉ completion
  ∨ part_promises client encodeURIComponent options
      (CreateMultipartUpload.UploadId response) !! index
    = Some Pending →
  (∀ settled reason,
     settled ∈ completion →
     part_promises client encodeURIComponent options
       (CreateMultipartUpload.UploadId response) !! settled
     ≠ Some (Rejected reason)) →
  copyObjectMultipart client encodeURIComponent completion options
  = (Pending,
     CreateMultipartUploadCommand (initiate_request options)
     :: (UploadPartCopyCommand
           <$> part_requests encodeURIComponent options
                 (CreateMultipartUpload.UploadId response))).
Proof.
  intros Hcreate Hindex Hnever Hnone.
  rewrite copyObjectMultipart_spec, Hcreate.
  rewrite copyObjectMultipart_with_cases. cbn zeta.
  assert (Promise_all
            (part_promises client encodeURIComponent options
               (CreateMultipartUpload.UploadId response)) completion
          = Pending) as ->; [|reflexivity].
  apply (Promise_all_settle_pending _ _ _ index); [|done..].
  apply lookup_replicate. split; [done|].
  unfold part_promises, part_requests. by rewrite length_fmap, length_imap.
Qed.

Lemma unsettled_part_keeps_pending_witness :
  copyObjectMultipart client_pending_part_2 id [2; 0]%nat
    (sample_options 120000000 None)
  = (Pending,
     CreateMultipartUploadCommand
       (initiate_request (sample_options 120000000 None))
     :: (UploadPartCopyCommand
           <$> part_requests id (sample_options 120000000 None)
                 (Some "upload-1"))).
Proof.
  apply (unsettled_part_keeps_pending client_pending_part_2 id [2; 0]%nat
           (sample_options 120000000 None)
           {| CreateMultipartUpload.UploadId := Some "upload-1" |} 1%nat).
  - reflexivity.
  - vm_compute. lia.
  - right. vm_compute. reflexivity.
  - intros settled reason Hsettled.
    apply elem_of_cons in Hsettled as [-> | Hsettled]; [by vm_compute|].
    apply elem_of_cons in Hsettled as [-> | Hsettled]; [by vm_compute|].
    inversion Hsettled.
Defined.

(** ** The initiate request *)

Lemma truthy_string_spec (given : option string) :
  truthy_string given ≠ Some ""
  ∧ (truthy_string given = given
     ∨ truthy_string given = None ∧ given = Some "").
Proof. destruct given as [[|? ?]|]; simpl; auto. Qed.

(** X19: the first request of every run is the initiate request, and its ACL
    is never empty: it is the permissions given when they are a non-empty
    text, and "private" when they are absent or empty. *)
Theorem initiate_request_acl client encodeURIComponent completion options :
  ∃ params,
    sent (copyObjectMultipart client encodeURIComponent completion options)
      !! 0%nat
    = Some (CreateMultipartUploadCommand params)
    ∧ CreateMultipartUpload.ACL params ≠ ""
    ∧ (CreateMultipartUpload.ACL params = "private"
       ∧ (Options.copied_object_permissions options = None
          ∨ Options.copied_object_permissions options = Some ""
          ∨ Options.copied_object_permissions options = Some "private")
       ∨ Options.copied_object_permissions options
         = Some (CreateMultipartUpload.ACL params)).
Proof.
  exists (initiate_request options). split.
  - rewrite copyObjectMultipart_spec.
    by destruct (createMultipartUpload client (initiate_request options)).
  - unfold initiate_request, initiateMultipartCopy_params. simpl.
    destruct (Options.copied_object_permissions options) as [[|? ?]|]; simpl;
      split; auto; done.
Qed.

(** X20: in the initiate request, each optional text setting (content type,
    disposition, encoding, language, cache control, server-side encryption,
    storage class) is passed as given, except that an empty text is left out;
    no such key is ever sent with an empty value.  The expiration is passed as
    given, except that the number 0 is left out, and the metadata are passed
    as given; bucket and key are the destination's. *)
Theorem initiate_request_settings options :
  Forall
    (λ setting : option string * option string,
       setting.2 ≠ Some ""
       ∧ (setting.2 = setting.1 ∨ setting.2 = None ∧ setting.1 = Some ""))
    [(Options.content_type options,
      CreateMultipartUpload.ContentType (initiate_request options));
     (Options.content_disposition options,
      CreateMultipartUpload.ContentDisposition (initiate_request options));
     (Options.content_encoding options,
      CreateMultipartUpload.ContentEncoding (initiate_request options));
     (Options.content_language options,
      CreateMultipartUpload.ContentLanguage (initiate_request options));
     (Options.cache_control options,
      CreateMultipartUpload.CacheControl (initiate_request options));
     (Options.server_side_encryption options,
      CreateMultipartUpload.ServerSideEncryption (initiate_request options));
     (Options.storage_class options,
      CreateMultipartUpload.StorageClass (initiate_request options))]
  ∧ CreateMultipartUpload.Expires (initiate_request options)
    ≠ Some (ExpirationNumber 0)
  ∧ (CreateMultipartUpload.Expires (initiate_request options)
     = Options.expiration_period options
     ∨ CreateMultipartUpload.Expires (initiate_request options) = None
       ∧ Options.expiration_period options = Some (ExpirationNumber 0))
  ∧ CreateMultipartUpload.Metadata (initiate_request options)
    = Options.metadata options
  ∧ CreateMultipartUpload.Bucket (initiate_request options)
    = Options.destination_bucket options
  ∧ CreateMultipartUpload.Key (initiate_request options)
    = Options.copied_object_name options.
Proof.
  split; [repeat (apply List.Forall_cons; [apply truthy_string_spec|]);
          apply List.Forall_nil|].
  unfold initiate_request, initiateMultipartCopy_params. simpl.
  destruct (Options.expiration_period options) as [[n | iso]|]; simpl.
  - destruct (Z.eqb_spec n 0) as [-> | Hne]; repeat split; auto; congruence.
  - repeat split; auto; discriminate.
  - repeat split; auto; discriminate.
Qed.

(** ** A source key that cannot be encoded *)

(** X21: when encodeURIComponent throws on the source key (a key with a lone
    surrogate) and the plan has at least one range, a run whose initiate
    request was fulfilled is rejected with that URIError, and the initiate
    request stays its only request: no part is copied and the upload that was
    created is neither completed nor aborted. *)
Theorem encoding_failure_leaves_upload_open client encodeURIComponent completion
    options response :
  createMultipartUpload client (initiate_request options) = Fulfilled response →
  encodeURIComponent
    (Options.source_bucket options +:+ "/" +:+ Options.object_key options)
  = None →
  calculatePartitionsRangeArray (Options.object_size options)
    (Options.copy_part_size_bytes options) ≠ [] →
  ∃ message,
    copyObjectMultipart_throwing client encodeURIComponent completion options
    = (Rejected (URIError message),
       [CreateMultipartUploadCommand (initiate_request options)]).
Proof.
  intros Hcreate Hthrows Hranges.
  rewrite copyObjectMultipart_throwing_spec, Hcreate.
  rewrite copyObjectMultipart_with_throwing_throws by done.
  unfold URI_malformed. eauto.
Qed.

Lemma encoding_failure_leaves_upload_open_witness :
  ∃ message,
    copyObjectMultipart_throwing accepting_client throwing_encoder
      [0; 1; 2]%nat (sample_options 120000000 None)
    = (Rejected (URIError message),
       [CreateMultipartUploadCommand
          (initiate_request (sample_options 120000000 None))]).
Proof.
  apply (encoding_failure_leaves_upload_open accepting_client throwing_encoder
           [0; 1; 2]%nat (sample_options 120000000 None)
           {| CreateMultipartUpload.UploadId := Some "upload-1" |}).
  - reflexivity.
  - reflexivity.
  - vm_compute. discriminate.
Defined.

(** X22: when encodeURIComponent returns on the source key, the run is the
    one of the functions that take the encoder as a function returning that
    text: the same outcome and the same requests. *)
Theorem encoding_that_returns client encodeURIComponent completion options
    encoded :
  encodeURIComponent
    (Options.source_bucket options +:+ "/" +:+ Options.object_key options)
  = Some encoded →
  copyObjectMultipart_throwing client encodeURIComponent completion options
  = copyObjectMultipart client (λ _, encoded) completion options.
Proof.
  intros Hencoded.
  rewrite copyObjectMultipart_throwing_spec, copyObjectMultipart_spec.
  destruct (createMultipartUpload client (initiate_request options));
    [reflexivity | | reflexivity].
  by rewrite (copyObjectMultipart_with_throwing_returns _ _ _ _ _ encoded).
Qed.

Lemma encoding_that_returns_witness :
  copyObjectMultipart_throwing accepting_client sample_encoder [2; 1; 0]%nat
    (sample_options 120000000 None)
  = copyObjectMultipart accepting_client
      (λ _, "source-bucket%2Fvideos%2Fbig.bin") [2; 1; 0]%nat
      (sample_options 120000000 None).
Proof.
  apply (encoding_that_returns accepting_client sample_encoder [2; 1; 0]%nat
           (sample_options 120000000 None) "source-bucket%2Fvideos%2Fbig.bin").
  reflexivity.
Defined.
